(** * A shallow embedding of the library data-access layer of UVBeatShelf

    The models follow src/models: the playlist ordering engine
    (playlist.py), the duration formatters (playlist.py, track.py,
    music_library.py), the artist get-or-create of the façade, the partial
    updates of track.py and album.py, and the storage gateway of
    database_manager.py (execute, create_tables, transfer_data,
    migrate_database). *)

From Stdlib Require Import ZArith String Ascii Bool List Lia Permutation Sorted.
Import ListNotations.
Open Scope Z_scope.

(* ------------------------------------------------------------------ *)
(** ** Values returned by [DatabaseManager.execute] *)

(** A SQLite value as the Python driver hands it back. *)
Inductive value :=
| VNull
| VInt (z : Z)
| VText (s : string).

(** [dict(row)] for one result row: column name to value. *)
Definition row_dict := list (string * value).

(** [execute] returns a list of dicts for a SELECT and an int otherwise;
    a caught failure returns the empty list. *)
Inductive exec_out :=
| OutRows (rs : list row_dict)
| OutInt (n : Z).

(** [cursor.lastrowid if cursor.lastrowid else cursor.rowcount]; every
    [execute] opens a fresh connection, so [lastrowid] is 0 unless the
    statement itself inserted a row. *)
Definition write_result (lastrowid rowcount : Z) : Z :=
  if Z.eqb lastrowid 0 then rowcount else lastrowid.

(* ------------------------------------------------------------------ *)
(** ** The playlist ordering engine (playlist.py) *)

Module PlaylistModel.

(** One row of [playlist_tracks]; the implicit SQLite rowid orders the
    table. *)
Record pt_row := mk_pt {
  pt_rowid : Z;
  playlist_id : Z;
  track_id : Z;
  position : Z
}.

Definition table := list pt_row.

Definition set_position (r : pt_row) (p : Z) : pt_row :=
  mk_pt (pt_rowid r) (playlist_id r) (track_id r) p.

(** [UPDATE playlist_tracks SET position = f(position) WHERE cond]:
    the new table and the number of changed rows. *)
Definition update_row (cond : pt_row -> bool) (f : Z -> Z) (r : pt_row)
  : pt_row :=
  if cond r then set_position r (f (position r)) else r.

Definition sql_update (cond : pt_row -> bool) (f : Z -> Z) (t : table)
  : table * Z :=
  (map (update_row cond f) t, Z.of_nat (length (filter cond t))).

(** [SELECT position FROM playlist_tracks WHERE playlist_id = ? AND
    track_id = ?] *)
Definition select_position (pid tid : Z) (t : table) : list Z :=
  map position
    (filter (fun r => Z.eqb (playlist_id r) pid && Z.eqb (track_id r) tid) t).

(** [DELETE FROM playlist_tracks WHERE playlist_id = ? AND track_id = ?] *)
Definition sql_delete (pid tid : Z) (t : table) : table :=
  filter (fun r => negb (Z.eqb (playlist_id r) pid && Z.eqb (track_id r) tid)) t.

Definition has_key (pid tid : Z) (t : table) : bool :=
  existsb (fun r => Z.eqb (playlist_id r) pid && Z.eqb (track_id r) tid) t.

Definition max_rowid (t : table) : Z :=
  fold_right (fun r m => Z.max (pt_rowid r) m) 0 t.

(** [INSERT INTO playlist_tracks (playlist_id, track_id, position)
    VALUES (?, ?, ?)]: the PRIMARY KEY (playlist_id, track_id) makes a
    second row for a pair fail; [execute] rolls the failed statement back
    and returns [[]]. A fresh row gets rowid [max rowid + 1]. *)
Definition sql_insert (pid tid pos : Z) (t : table) : table * exec_out :=
  if has_key pid tid t then (t, OutRows [])
  else
    let rid := max_rowid t + 1 in
    (t ++ [mk_pt rid pid tid pos], OutInt (write_result rid 1)).

(** [Playlist.add_track]: shift every member of the playlist down by one,
    then insert the new pair at position 1. *)
Definition add_track (pid tid : Z) (t : table) : table * exec_out :=
  let (t1, _) := sql_update (fun r => Z.eqb (playlist_id r) pid)
                            (fun p => p + 1) t in
  sql_insert pid tid 1 t1.

(** [Playlist.remove_track] *)
Definition remove_track (pid tid : Z) (t : table) : table * Z :=
  match select_position pid tid t with
  | [] => (t, 0)
  | pos :: _ =>
      let t1 := sql_delete pid tid t in
      let (t2, n) := sql_update
                       (fun r => Z.eqb (playlist_id r) pid && Z.ltb pos (position r))
                       (fun p => p - 1) t1 in
      (t2, write_result 0 n)
  end.

(** [Playlist.change_track_position] *)
Definition change_track_position (pid tid new_position : Z) (t : table)
  : table * Z :=
  match select_position pid tid t with
  | [] => (t, 0)
  | current_position :: _ =>
      if Z.eqb current_position new_position then (t, 0)
      else
        let t1 :=
          if Z.ltb current_position new_position then
            fst (sql_update
                   (fun r => Z.eqb (playlist_id r) pid
                             && Z.ltb current_position (position r)
                             && Z.leb (position r) new_position)
                   (fun p => p - 1) t)
          else
            fst (sql_update
                   (fun r => Z.eqb (playlist_id r) pid
                             && Z.leb new_position (position r)
                             && Z.ltb (position r) current_position)
                   (fun p => p + 1) t) in
        let (t2, n) := sql_update
                         (fun r => Z.eqb (playlist_id r) pid && Z.eqb (track_id r) tid)
                         (fun _ => new_position) t1 in
        (t2, write_result 0 n)
  end.

(** The three mutating operations of the ordering engine. *)
Inductive pl_op :=
| OpAdd (pid tid : Z)
| OpRemove (pid tid : Z)
| OpMove (pid tid new_position : Z).

Definition apply_op (t : table) (o : pl_op) : table :=
  match o with
  | OpAdd pid tid => fst (add_track pid tid t)
  | OpRemove pid tid => fst (remove_track pid tid t)
  | OpMove pid tid np => fst (change_track_position pid tid np t)
  end.

Definition run_ops (ops : list pl_op) (t : table) : table :=
  fold_left apply_op ops t.

(** Rows of one playlist, in table order. *)
Definition members (pid : Z) (t : table) : table :=
  filter (fun r => Z.eqb (playlist_id r) pid) t.

Definition positions (pid : Z) (t : table) : list Z :=
  map position (members pid t).

(** The multiset [{1, ..., N}]. *)
Definition one_to (n : nat) : list Z := map Z.of_nat (seq 1 n).

(** The calls the ordering engine handles without tripping over a missing
    guard: [add_track] of a pair not yet in the table and
    [change_track_position] to a target within [1..N]. *)
Definition op_ok (t : table) (o : pl_op) : bool :=
  match o with
  | OpAdd pid tid => negb (has_key pid tid t)
  | OpRemove _ _ => true
  | OpMove pid _ np =>
      Z.leb 1 np && Z.leb np (Z.of_nat (length (members pid t)))
  end.

Fixpoint ops_ok (t : table) (ops : list pl_op) : bool :=
  match ops with
  | [] => true
  | o :: rest => op_ok t o && ops_ok (apply_op t o) rest
  end.

(** Rows of [tracks] and [artists] that [get_tracks] joins with. *)
Record track_ref := mk_track_ref {
  tr_id : Z;
  tr_title : string;
  tr_artist_id : option Z;
  tr_duration : option Z
}.

Record artist_ref := mk_artist_ref {
  ar_id : Z;
  ar_name : string
}.

(** One row of [SELECT t.id, t.title, t.duration, a.name as artist_name,
    pt.position]. *)
Record track_out := mk_out {
  o_id : Z;
  o_title : string;
  o_duration : option Z;
  o_artist_name : option string;
  o_position : Z
}.

Definition same_id (a : option Z) (b : Z) : bool :=
  match a with Some x => Z.eqb x b | None => false end.

(** [LEFT JOIN artists a ON t.artist_id = a.id] *)
Definition left_join_artist (artists : list artist_ref) (pt : pt_row)
  (tr : track_ref) : list track_out :=
  match filter (fun a => same_id (tr_artist_id tr) (ar_id a)) artists with
  | [] => [mk_out (tr_id tr) (tr_title tr) (tr_duration tr) None (position pt)]
  | l => map (fun a => mk_out (tr_id tr) (tr_title tr) (tr_duration tr)
                              (Some (ar_name a)) (position pt)) l
  end.

(** [FROM playlist_tracks pt JOIN tracks t ON pt.track_id = t.id] *)
Definition join_track (artists : list artist_ref) (tracks : list track_ref)
  (pt : pt_row) : list track_out :=
  flat_map (fun tr => if Z.eqb (tr_id tr) (track_id pt)
                      then left_join_artist artists pt tr else []) tracks.

(** [ORDER BY pt.position], a stable insertion sort. *)
Fixpoint insert_by_position (x : track_out) (l : list track_out)
  : list track_out :=
  match l with
  | [] => [x]
  | y :: l' => if Z.leb (o_position x) (o_position y) then x :: l
               else y :: insert_by_position x l'
  end.

Fixpoint sort_by_position (l : list track_out) : list track_out :=
  match l with
  | [] => []
  | x :: l' => insert_by_position x (sort_by_position l')
  end.

(** [Playlist.get_tracks] *)
Definition get_tracks (pid : Z) (artists : list artist_ref)
  (tracks : list track_ref) (t : table) : list track_out :=
  sort_by_position (flat_map (join_track artists tracks) (members pid t)).

(** [add_track] called once per track, in order. *)
Definition add_all (pid : Z) (tids : list Z) (t : table) : table :=
  fold_left (fun acc tid => fst (add_track pid tid acc)) tids t.

(** Invariant of the ordering engine. *)
(** The positions of one playlist are dense: duplicate-free track ids
    (the primary key), duplicate-free positions, all within [1..N]. *)
Definition dense (l : table) : Prop :=
  NoDup (map track_id l) /\ NoDup (map position l) /\
  (forall x, In x (map position l) -> 1 <= x <= Z.of_nat (length l)).

Definition Inv (t : table) : Prop := forall p, dense (members p t).

(** [remove_track] as a map over the rows left after the delete. *)
Definition shift_down (p c : Z) :=
  update_row (fun r => Z.eqb (playlist_id r) p && Z.ltb c (position r))
             (fun x => x - 1).

(** The two shifts of [change_track_position]. *)
Definition shift_range (p c np : Z) : pt_row -> pt_row :=
  if Z.ltb c np then
    update_row (fun r => Z.eqb (playlist_id r) p && Z.ltb c (position r)
                         && Z.leb (position r) np) (fun x => x - 1)
  else
    update_row (fun r => Z.eqb (playlist_id r) p && Z.leb np (position r)
                         && Z.ltb (position r) c) (fun x => x + 1).

Definition place (p k np : Z) : pt_row -> pt_row :=
  update_row (fun r => Z.eqb (playlist_id r) p && Z.eqb (track_id r) k)
             (fun _ => np).

(** The pairs (track, position) that [add_all] leaves in a playlist that
    started empty: the last track at position 1, the first at position N. *)
Fixpoint stack (tids : list Z) : list (Z * Z) :=
  match tids with
  | [] => []
  | k :: ks => (k, 1 + Z.of_nat (length ks)) :: stack ks
  end.

(** A member as a (track, position) pair. *)
Definition pair_of (r : pt_row) : Z * Z := (track_id r, position r).

End PlaylistModel.

(* ------------------------------------------------------------------ *)
(** ** Duration formatters *)

Module Format.

Definition digit (n : Z) : ascii := ascii_of_nat (48 + Z.to_nat n).

(** Decimal digits of a non-negative integer, most significant first. *)
Fixpoint dec_digits (fuel : nat) (n : Z) (acc : string) : string :=
  match fuel with
  | O => acc
  | S f => if Z.ltb n 10 then String (digit n) acc
           else dec_digits f (n / 10) (String (digit (n mod 10)) acc)
  end.

Definition decimal (n : Z) : string :=
  dec_digits (S (Z.to_nat (Z.log2 n))) n EmptyString.

Fixpoint zeros (k : nat) : string :=
  match k with O => EmptyString | S k' => String "0" (zeros k') end.

(** Python's [f"{n:02d}"]: sign, then zeros up to a width of 2, then the
    digits. *)
Definition format_02d (n : Z) : string :=
  let sign := if Z.ltb n 0 then "-"%string else EmptyString in
  let body := decimal (Z.abs n) in
  (sign ++ zeros (2 - (String.length sign + String.length body)) ++ body)%string.

(** [Playlist._format_duration]; Python's [divmod] floors, as [Z.div] and
    [Z.modulo] do. *)
Definition playlist_format_duration (duration : Z) : string :=
  let hours := duration / 3600 in
  let remainder := duration mod 3600 in
  let minutes := remainder / 60 in
  let seconds := remainder mod 60 in
  if negb (Z.eqb hours 0)
  then (format_02d hours ++ ":" ++ format_02d minutes ++ ":" ++
        format_02d seconds)%string
  else (format_02d minutes ++ ":" ++ format_02d seconds)%string.

(** [Track._format_duration] *)
Definition track_format_duration (duration : Z) : string :=
  let minutes := duration / 60 in
  let seconds := duration mod 60 in
  (format_02d minutes ++ ":" ++ format_02d seconds)%string.

(** [MusicLibrary.format_duration] *)
Definition library_format_duration (duration : Z) : string :=
  let minutes := duration / 60 in
  let seconds := duration mod 60 in
  (format_02d minutes ++ ":" ++ format_02d seconds)%string.

(** Two decimal digits, the first possibly 0. *)
Definition two_digits (n : Z) : string :=
  String (digit (n / 10)) (String (digit (n mod 10)) EmptyString).

End Format.

(* ------------------------------------------------------------------ *)
(** ** Artist get-or-create (artist.py, music_library.py) *)

Module ArtistModel.

Record artist_row := mk_artist {
  a_id : Z;
  a_name : string
}.

(** The [artists] rows and the AUTOINCREMENT counter of
    [sqlite_sequence]. *)
Record artists_table := mk_artists {
  a_rows : list artist_row;
  a_seq : Z
}.

Definition named (name : string) (r : artist_row) : bool :=
  String.eqb (a_name r) name.

(** [Artist.get_by_name]: [result[0] if result else None]. *)
Definition get_by_name (name : string) (t : artists_table) : option artist_row :=
  match filter (named name) (a_rows t) with
  | [] => None
  | r :: _ => Some r
  end.

Definition max_id (rows : list artist_row) : Z :=
  fold_right (fun r m => Z.max (a_id r) m) 0 rows.

(** [Artist.add]: [INSERT INTO artists (name) VALUES (?)]. The UNIQUE name
    makes a second row for a name fail, which [execute] turns into [[]];
    AUTOINCREMENT picks one more than any id used so far. *)
Definition add (name : string) (t : artists_table) : artists_table * exec_out :=
  if existsb (named name) (a_rows t) then (t, OutRows [])
  else
    let id := Z.max (a_seq t) (max_id (a_rows t)) + 1 in
    (mk_artists (a_rows t ++ [mk_artist id name]) id,
     OutInt (write_result id 1)).

(** [MusicLibrary.add_artist] *)
Definition add_artist (name : string) (t : artists_table)
  : artists_table * exec_out :=
  match get_by_name name t with
  | Some existing_artist => (t, OutInt (a_id existing_artist))
  | None => add name t
  end.

End ArtistModel.

(* ------------------------------------------------------------------ *)
(** ** Partial updates (track.py, album.py) *)

Module UpdateModel.

Record track_row := mk_track {
  tk_id : Z;
  tk_title : string;
  tk_artist_id : option Z;
  tk_album_id : option Z;
  tk_duration : option Z;
  tk_file_path : string;
  tk_cover_path : option string;
  tk_lyrics : option string
}.

Record album_row := mk_album {
  al_id : Z;
  al_title : string;
  al_artist_id : option Z;
  al_year : option Z
}.

(** Python truthiness of [title: str = None]: [None] and [""] are false. *)
Definition truthy_str (o : option string) : bool :=
  match o with
  | Some s => negb (String.eqb s EmptyString)
  | None => false
  end.

(** One entry of [update_fields] with its parameter. *)
Inductive track_field :=
| TTitle (s : string)
| TArtist (z : Z)
| TAlbum (z : Z)
| TDuration (z : Z)
| TLyrics (s : string).

Definition set_track_field (r : track_row) (f : track_field) : track_row :=
  match f with
  | TTitle s => mk_track (tk_id r) s (tk_artist_id r) (tk_album_id r)
                  (tk_duration r) (tk_file_path r) (tk_cover_path r) (tk_lyrics r)
  | TArtist z => mk_track (tk_id r) (tk_title r) (Some z) (tk_album_id r)
                  (tk_duration r) (tk_file_path r) (tk_cover_path r) (tk_lyrics r)
  | TAlbum z => mk_track (tk_id r) (tk_title r) (tk_artist_id r) (Some z)
                  (tk_duration r) (tk_file_path r) (tk_cover_path r) (tk_lyrics r)
  | TDuration z => mk_track (tk_id r) (tk_title r) (tk_artist_id r) (tk_album_id r)
                  (Some z) (tk_file_path r) (tk_cover_path r) (tk_lyrics r)
  | TLyrics s => mk_track (tk_id r) (tk_title r) (tk_artist_id r) (tk_album_id r)
                  (tk_duration r) (tk_file_path r) (tk_cover_path r) (Some s)
  end.

Definition opt_field {A} (o : option A) (mk : A -> track_field)
  : list track_field :=
  match o with Some a => [mk a] | None => [] end.

(** The [if title:] / [if ... is not None:] chain of [Track.update]. *)
Definition track_update_fields (title : option string)
  (artist_id album_id duration : option Z) (lyrics : option string)
  : list track_field :=
  (match title with
   | Some s => if truthy_str title then [TTitle s] else []
   | None => []
   end)
  ++ opt_field artist_id TArtist ++ opt_field album_id TAlbum
  ++ opt_field duration TDuration ++ opt_field lyrics TLyrics.

(** [Track.update]: [UPDATE tracks SET ... WHERE id = ?], or 0 without a
    field. *)
Definition track_update (track_id : Z) (title : option string)
  (artist_id album_id duration : option Z) (lyrics : option string)
  (rows : list track_row) : list track_row * Z :=
  match track_update_fields title artist_id album_id duration lyrics with
  | [] => (rows, 0)
  | fields =>
      (map (fun r => if Z.eqb (tk_id r) track_id
                     then fold_left set_track_field fields r else r) rows,
       write_result 0
         (Z.of_nat (length (filter (fun r => Z.eqb (tk_id r) track_id) rows))))
  end.

Inductive album_field :=
| ATitle (s : string)
| AArtist (z : Z)
| AYear (z : Z).

Definition set_album_field (r : album_row) (f : album_field) : album_row :=
  match f with
  | ATitle s => mk_album (al_id r) s (al_artist_id r) (al_year r)
  | AArtist z => mk_album (al_id r) (al_title r) (Some z) (al_year r)
  | AYear z => mk_album (al_id r) (al_title r) (al_artist_id r) (Some z)
  end.

Definition album_update_fields (title : option string)
  (artist_id year : option Z) : list album_field :=
  (match title with
   | Some s => if truthy_str title then [ATitle s] else []
   | None => []
   end)
  ++ (match artist_id with Some z => [AArtist z] | None => [] end)
  ++ (match year with Some z => [AYear z] | None => [] end).

(** [Album.update] *)
Definition album_update (album_id : Z) (title : option string)
  (artist_id year : option Z) (rows : list album_row) : list album_row * Z :=
  match album_update_fields title artist_id year with
  | [] => (rows, 0)
  | fields =>
      (map (fun r => if Z.eqb (al_id r) album_id
                     then fold_left set_album_field fields r else r) rows,
       write_result 0
         (Z.of_nat (length (filter (fun r => Z.eqb (al_id r) album_id) rows))))
  end.

(** Spec-side reading of a partial update, to be compared with
    [track_update] and [album_update]: a field counts as supplied when the
    source's guard accepts it ([if title:] for the title, [is not None]
    for the others); a supplied field takes the argument, every other field
    keeps its old value. *)
Definition pick {A} (o old : option A) : option A :=
  match o with Some a => Some a | None => old end.

Definition pick_title (title : option string) (old : string) : string :=
  match title with
  | Some s => if truthy_str title then s else old
  | None => old
  end.

(** Python's [x is not None]. *)
Definition not_none {A} (o : option A) : bool :=
  match o with Some _ => true | None => false end.

Definition track_supplied (title : option string)
  (artist_id album_id duration : option Z) (lyrics : option string) : bool :=
  truthy_str title || not_none artist_id || not_none album_id
  || not_none duration || not_none lyrics.

Definition track_after_update (title : option string)
  (artist_id album_id duration : option Z) (lyrics : option string)
  (r : track_row) : track_row :=
  mk_track (tk_id r) (pick_title title (tk_title r))
    (pick artist_id (tk_artist_id r)) (pick album_id (tk_album_id r))
    (pick duration (tk_duration r)) (tk_file_path r) (tk_cover_path r)
    (pick lyrics (tk_lyrics r)).

Definition album_supplied (title : option string)
  (artist_id year : option Z) : bool :=
  truthy_str title || not_none artist_id || not_none year.

Definition album_after_update (title : option string)
  (artist_id year : option Z) (r : album_row) : album_row :=
  mk_album (al_id r) (pick_title title (al_title r))
    (pick artist_id (al_artist_id r)) (pick year (al_year r)).

End UpdateModel.

(* ------------------------------------------------------------------ *)
(** ** The storage gateway (database_manager.py) *)

Module Storage.

Local Open Scope string_scope.
Local Open Scope list_scope.
Local Open Scope Z_scope.

(** The exceptions the gateway's code can raise.  [OperationalError] and
    [ProgrammingError] are [sqlite3.Error]s; the others are not. *)
Inductive py_exn :=
| OperationalError
| ProgrammingError
| OSError
| FileNotFoundError
| IndexError
| KeyError
| TypeError
| OverflowError.

(** One SQLite table: its columns, its UNIQUE / PRIMARY KEY column groups
    and its rows in rowid order. *)
Record sql_table := mk_table {
  tb_cols : list string;
  tb_keys : list (list string);
  tb_rows : list row_dict
}.

(** A database file: table name to table. *)
Definition db_file := list (string * sql_table).

Fixpoint assoc {A} (k : string) (l : list (string * A)) : option A :=
  match l with
  | [] => None
  | (k', v) :: l' => if String.eqb k k' then Some v else assoc k l'
  end.

Fixpoint assoc_put {A} (k : string) (v : A) (l : list (string * A))
  : list (string * A) :=
  match l with
  | [] => [(k, v)]
  | (k', v') :: l' =>
      if String.eqb k k' then (k, v) :: l' else (k', v') :: assoc_put k v l'
  end.

Definition assoc_del {A} (k : string) (l : list (string * A))
  : list (string * A) :=
  filter (fun kv => negb (String.eqb k (fst kv))) l.

(** The file system as the gateway sees it, with a fault schedule: every
    fallible I/O step reads the clock, fails when [fails] says so and
    advances the clock. *)
Record fs_state := mk_fs {
  files : list (string * db_file);
  clock : nat;
  fails : nat -> bool
}.

Definition get (p : string) (s : fs_state) : option db_file :=
  assoc p (files s).

Definition put (p : string) (d : db_file) (s : fs_state) : fs_state :=
  mk_fs (assoc_put p d (files s)) (clock s) (fails s).

Definition del (p : string) (s : fs_state) : fs_state :=
  mk_fs (assoc_del p (files s)) (clock s) (fails s).

(** A state and exception monad for Python code with I/O. *)
Inductive outcome (A : Type) :=
| Ok (a : A)
| Raise (e : py_exn).
Arguments Ok {A} a.
Arguments Raise {A} e.

Definition io (A : Type) := fs_state -> outcome A * fs_state.

Definition ret {A} (a : A) : io A := fun s => (Ok a, s).

Definition raise {A} (e : py_exn) : io A := fun s => (Raise e, s).

Definition bind {A B} (m : io A) (k : A -> io B) : io B :=
  fun s => match m s with
           | (Ok a, s') => k a s'
           | (Raise e, s') => (Raise e, s')
           end.

Notation "x <- m ;; k" := (bind m (fun x => k))
  (at level 61, m at next level, right associativity).

(** [try: m except Exception as e: h e] *)
Definition try_ {A} (m : io A) (h : py_exn -> io A) : io A :=
  fun s => match m s with
           | (Ok a, s') => (Ok a, s')
           | (Raise e, s') => h e s'
           end.

Fixpoint iter_io {A} (f : A -> io unit) (l : list A) : io unit :=
  match l with
  | [] => ret tt
  | x :: l' => _ <- f x ;; iter_io f l'
  end.

(** One fallible I/O step: [true] when it fails. *)
Definition tick : io bool :=
  fun s => (Ok (fails s (clock s)), mk_fs (files s) (S (clock s)) (fails s)).

Definition read_db (p : string) : io (option db_file) :=
  fun s => (Ok (get p s), s).

Definition write_db (p : string) (d : db_file) : io unit :=
  fun s => (Ok tt, put p d s).

Definition path_exists (p : string) : io bool :=
  fun s => (Ok (match get p s with Some _ => true | None => false end), s).

(** [os.remove(p)] *)
Definition os_remove (p : string) : io unit :=
  fault <- tick ;;
  if fault then raise OSError else
  fun s => match get p s with
           | Some _ => (Ok tt, del p s)
           | None => (Raise FileNotFoundError, s)
           end.

(** [shutil.copy2(src, dst)]: the file's content (metadata is not
    modelled). *)
Definition copy2 (src dst : string) : io unit :=
  fault <- tick ;;
  if fault then raise OSError else
  fun s => match get src s with
           | Some d => (Ok tt, put dst d s)
           | None => (Raise FileNotFoundError, s)
           end.

(** [sqlite3.connect(p)]: opening creates an empty database file when
    there is none; a failure raises [sqlite3.OperationalError]. *)
Definition connect (p : string) : io unit :=
  fault <- tick ;;
  if fault then raise OperationalError else
  fun s => match get p s with
           | Some _ => (Ok tt, s)
           | None => (Ok tt, put p [] s)
           end.

(** The statements the gateway's code sends through [execute]. *)
Inductive stmt :=
| SCreateTable (name : string) (cols : list string) (keys : list (list string))
| SSelectAll (name : string)
| SCount (name : string)
| STableInfo (name : string)
| SInsertOrIgnore (name : string) (cols : list string) (vals : list value).

(** [query.strip().upper().startswith("SELECT")] *)
Definition is_select (q : stmt) : bool :=
  match q with
  | SSelectAll _ | SCount _ => true
  | _ => false
  end.

Definition has_table (t : string) (db : db_file) : bool :=
  match assoc t db with Some _ => true | None => false end.

Definition str_in (x : string) (l : list string) : bool :=
  existsb (String.eqb x) l.

(** Preparing the statement and checking the number of bindings: a missing
    table, an unknown column, an empty column list (a syntax error) or a
    wrong number of parameters raise a [sqlite3.Error]. *)
Definition prepare (q : stmt) (db : db_file) : bool :=
  match q with
  | SCreateTable _ _ _ | STableInfo _ => true
  | SSelectAll t | SCount t => has_table t db
  | SInsertOrIgnore t cols vals =>
      match assoc t db with
      | Some tb =>
          negb (Nat.eqb (length cols) 0)
          && forallb (fun c => str_in c (tb_cols tb)) cols
          && Nat.eqb (length cols) (length vals)
      | None => false
      end
  end.

(** Binding a Python int outside SQLite's 64-bit range raises
    [OverflowError]. *)
Definition int64_ok (z : Z) : bool :=
  Z.leb (- 2 ^ 63) z && Z.ltb z (2 ^ 63).

Definition binds_overflow (q : stmt) : bool :=
  match q with
  | SInsertOrIgnore _ _ vals =>
      existsb (fun v => match v with VInt z => negb (int64_ok z) | _ => false end)
        vals
  | _ => false
  end.

Definition value_eqb (v w : value) : bool :=
  match v, w with
  | VInt a, VInt b => Z.eqb a b
  | VText a, VText b => String.eqb a b
  | _, _ => false
  end.

(** Two rows clash on a UNIQUE column group when they agree on every
    column of it (NULLs never clash). *)
Definition clash (key : list string) (r r' : row_dict) : bool :=
  forallb (fun c => match assoc c r, assoc c r' with
                    | Some v, Some w => value_eqb v w
                    | _, _ => false
                    end) key.

(** Running a prepared statement: the new database, the rows fetched,
    [lastrowid] and [rowcount]. [rowcount] is -1 for statements other than
    INSERT; the rowid of an inserted row is its [id] when it has one. *)
Definition run_stmt (q : stmt) (db : db_file)
  : db_file * list row_dict * Z * Z :=
  match q with
  | SCreateTable t cols keys =>
      if has_table t db then (db, [], 0, -1)
      else (assoc_put t (mk_table cols keys []) db, [], 0, -1)
  | SSelectAll t =>
      match assoc t db with
      | Some tb => (db, tb_rows tb, 0, -1)
      | None => (db, [], 0, -1)
      end
  | SCount t =>
      match assoc t db with
      | Some tb => (db, [[("count"%string, VInt (Z.of_nat (length (tb_rows tb))))]], 0, -1)
      | None => (db, [], 0, -1)
      end
  | STableInfo t =>
      match assoc t db with
      | Some tb => (db, map (fun c => [("name"%string, VText c)]) (tb_cols tb), 0, -1)
      | None => (db, [], 0, -1)
      end
  | SInsertOrIgnore t cols vals =>
      match assoc t db with
      | Some tb =>
          let row := combine cols vals in
          if existsb (fun key => existsb (clash key row) (tb_rows tb)) (tb_keys tb)
          then (db, [], 0, 0)
          else
            let rowid := match assoc "id" row with
                         | Some (VInt z) => z
                         | _ => Z.of_nat (length (tb_rows tb)) + 1
                         end in
            (assoc_put t (mk_table (tb_cols tb) (tb_keys tb) (tb_rows tb ++ [row])) db,
             [], rowid, 1)
      | None => (db, [], 0, -1)
      end
  end.

(** [DatabaseManager.execute] on the store at [p]. *)
Definition execute (p : string) (q : stmt) : io exec_out :=
  _ <- connect p ;;
  odb <- read_db p ;;
  match odb with
  | None => ret (OutRows [])
  | Some db =>
      if negb (prepare q db) then ret (OutRows [])
      else if binds_overflow q then raise OverflowError
      else
        fault <- tick ;;
        if fault then ret (OutRows [])
        else
          let '(db', rows, lastrowid, rowcount) := run_stmt q db in
          if is_select q then ret (OutRows rows)
          else _ <- write_db p db' ;; ret (OutInt (write_result lastrowid rowcount))
  end.

(** The five tables of [create_tables], with their UNIQUE groups. *)
Definition schema : list (string * (list string * list (list string))) :=
  [("artists", (["id"; "name"], [["id"]; ["name"]]));
   ("albums", (["id"; "title"; "artist_id"; "year"], [["id"]]));
   ("tracks", (["id"; "title"; "artist_id"; "album_id"; "duration";
                "file_path"; "cover_path"; "lyrics"], [["id"]; ["file_path"]]));
   ("playlists", (["id"; "name"], [["id"]; ["name"]]));
   ("playlist_tracks", (["playlist_id"; "track_id"; "position"],
                        [["playlist_id"; "track_id"]]))].

Definition table_names : list string := map fst schema.

Definition create_tables (p : string) : io unit :=
  iter_io (fun '(t, (cols, keys)) =>
             _ <- execute p (SCreateTable t cols keys) ;; ret tt) schema.

Definition table_info (p t : string) : io exec_out :=
  execute p (STableInfo t).

(** [col['name']] and [row[0]['count']] *)
Definition get_key (k : string) (r : row_dict) : io value :=
  match assoc k r with Some v => ret v | None => raise KeyError end.

Fixpoint map_io {A B} (f : A -> io B) (l : list A) : io (list B) :=
  match l with
  | [] => ret []
  | x :: l' => y <- f x ;; ys <- map_io f l' ;; ret (y :: ys)
  end.

Definition text_of (v : value) : string :=
  match v with VText s => s | _ => EmptyString end.

(** The loop body of [transfer_data] for one table. *)
Definition transfer_table (p old t : string) : io unit :=
  old_data <- execute old (SSelectAll t) ;;
  match old_data with
  | OutRows [] | OutInt 0 => ret tt
  | OutInt _ =>
      (* [row.items()] on an int *)
      raise TypeError
  | OutRows rows =>
      info <- table_info p t ;;
      match info with
      | OutInt _ =>
          (* [for col in self.table_info(table)] iterates over an int *)
          raise TypeError
      | OutRows cols =>
          names <- map_io (get_key "name") cols ;;
          let new_columns := map text_of names in
          let filtered := map (filter (fun kv => str_in (fst kv) new_columns)) rows in
          match filtered with
          | [] => ret tt
          | first :: _ =>
              iter_io (fun row =>
                         _ <- execute p (SInsertOrIgnore t (map fst first) (map snd row)) ;;
                         ret tt) filtered
          end
      end
  end.

(** [transfer_data(old_db_path)]: [DatabaseManager(old_db_path)] runs
    [create_tables] on the old path first. *)
Definition transfer_data (p old : string) : io unit :=
  _ <- create_tables old ;;
  iter_io (transfer_table p old) table_names.

(** The verification loop of [migrate_database]: it reads and prints each
    table's count. *)
Definition verify_counts (p : string) : io unit :=
  iter_io (fun t =>
             r <- execute p (SCount t) ;;
             match r with
             | OutRows (row :: _) => _ <- get_key "count" row ;; ret tt
             | OutRows [] => raise IndexError
             | OutInt _ => raise TypeError
             end) table_names.

Definition delete_database (p : string) : io unit :=
  ex <- path_exists p ;;
  if ex then os_remove p else ret tt.

Definition create_new_database (p : string) : io unit :=
  _ <- delete_database p ;; create_tables p.

(** [f"{self.db_path}.backup_{timestamp}"] *)
Definition backup_path (p ts : string) : string :=
  String.append p (String.append ".backup_" ts).

Definition backup_database (p ts : string) : io string :=
  _ <- copy2 p (backup_path p ts) ;; ret (backup_path p ts).

(** The body of the [try] block: [old_db_path = self.db_path]. *)
Definition migration_steps (p bp : string) : io unit :=
  _ <- create_new_database p ;;
  _ <- transfer_data p p ;;
  _ <- verify_counts p ;;
  os_remove bp.

(** The [except] block: delete, copy the backup back, re-raise. *)
Definition restore (p bp : string) : io unit :=
  _ <- delete_database p ;; copy2 bp p.

Definition migrate_database (p ts : string) : io unit :=
  bp <- backup_database p ts ;;
  try_ (migration_steps p bp) (fun e => _ <- restore p bp ;; raise e).

(** The state after a fallible step that did not fail. *)
Definition after_tick (s : fs_state) : fs_state :=
  mk_fs (files s) (S (clock s)) (fails s).

(** [m] leaves the file at [q] as it was. *)
Definition keeps {A} (q : string) (m : io A) : Prop :=
  forall s, get q (snd (m s)) = get q s.

(** [m] leaves the file at [q] as it was whenever it raises. *)
Definition keeps_on_raise {A} (q : string) (m : io A) : Prop :=
  forall s e s', m s = (Raise e, s') -> get q s' = get q s.

End Storage.

(** Sample stores for the storage claims. *)

Module StorageSamples.
Import Storage.
Local Open Scope string_scope.

(** The database [create_tables] leaves in a fresh file. *)
Definition empty_db : db_file :=
  map (fun '(t, (cols, keys)) => (t, mk_table cols keys [])) schema.

(** A library with one artist. *)
Definition lib_db : db_file :=
  assoc_put "artists"
    (mk_table ["id"; "name"] [["id"]; ["name"]]
       [[("id", VInt 1); ("name", VText "Ada")]])
    empty_db.

Definition lib_state (fails : nat -> bool) : fs_state :=
  mk_fs [("lib.db", lib_db)] 0 fails.

Definition no_faults : nat -> bool := fun _ => false.

(** The [n]-th fallible I/O step fails, no other. *)
Definition fault_at (n : nat) : nat -> bool := fun k => Nat.eqb k n.

Definition stamp : string := "20240101_000000".

End StorageSamples.

(* ------------------------------------------------------------------ *)
(** ** The rest of the repositories (playlist.py, track.py, artist.py,
    album.py, music_library.py) *)

Module LibraryModel.
Import PlaylistModel ArtistModel UpdateModel.
Local Open Scope string_scope.
Local Open Scope list_scope.
Local Open Scope Z_scope.

(** The playlist an operation of the ordering engine addresses. *)
Definition op_playlist (o : pl_op) : Z :=
  match o with
  | OpAdd pid _ | OpRemove pid _ | OpMove pid _ _ => pid
  end.

(** [Playlist.get]: [SELECT * FROM playlists WHERE id = ?]. The
    [playlists] table has the columns of [artists] (an AUTOINCREMENT id
    and a UNIQUE name), so its rows are [artist_row]s. *)
Definition playlist_get (pid : Z) (pls : artists_table) : option artist_row :=
  match filter (fun r => Z.eqb (a_id r) pid) (a_rows pls) with
  | [] => None
  | r :: _ => Some r
  end.

(** [Playlist.create]: [INSERT INTO playlists (name) VALUES (?)], the
    statement of [Artist.add] on a table of the same schema. *)
Definition playlist_create (name : string) (pls : artists_table)
  : artists_table * exec_out :=
  add name pls.

(** [UPDATE artists SET name = ? WHERE id = ?] (and the same statement on
    [playlists]): renaming a row to a name another row holds violates the
    UNIQUE constraint; [execute] rolls back and returns [[]]. Ids are
    unique (the PRIMARY KEY). *)
Definition artist_update (id : Z) (name : string) (t : artists_table)
  : artists_table * exec_out :=
  let hit := fun r => Z.eqb (a_id r) id in
  if existsb hit (a_rows t)
     && existsb (fun r => negb (hit r) && named name r) (a_rows t)
  then (t, OutRows [])
  else (mk_artists (map (fun r => if hit r then mk_artist (a_id r) name else r)
                        (a_rows t)) (a_seq t),
        OutInt (write_result 0 (Z.of_nat (length (filter hit (a_rows t)))))).

(** [DELETE FROM artists WHERE id = ?]. Nothing cascades: SQLite enforces
    the FOREIGN KEY clauses only after [PRAGMA foreign_keys = ON], which
    the code never issues. *)
Definition artist_delete (id : Z) (t : artists_table) : artists_table * Z :=
  (mk_artists (filter (fun r => negb (Z.eqb (a_id r) id)) (a_rows t)) (a_seq t),
   write_result 0 (Z.of_nat (length (filter (fun r => Z.eqb (a_id r) id) (a_rows t))))).

Record playlist_info := mk_playlist_info {
  pi_id : Z;
  pi_name : string;
  pi_track_count : Z;
  pi_total_duration : string
}.

(** [sum(track['duration'] for track in tracks if track['duration'])] *)
Definition total_duration (tracks : list track_out) : Z :=
  fold_left (fun acc o => match o_duration o with
                          | Some d => if Z.eqb d 0 then acc else acc + d
                          | None => acc
                          end) tracks 0.

(** [Playlist.get_info] *)
Definition playlist_get_info (pid : Z) (pls : artists_table)
  (artists : list artist_ref) (tracks : list track_ref) (t : table)
  : option playlist_info :=
  match playlist_get pid pls with
  | Some playlist =>
      let trs := get_tracks pid artists tracks t in
      Some (mk_playlist_info (a_id playlist) (a_name playlist)
              (Z.of_nat (length trs))
              (Format.playlist_format_duration (total_duration trs)))
  | None => None
  end.

(** SQL [=] on nullable integers: a comparison with NULL is never true. *)
Definition sql_eq_opt (a b : option Z) : bool :=
  match a, b with
  | Some x, Some y => Z.eqb x y
  | _, _ => false
  end.

(** [FROM tracks t LEFT JOIN artists a ON t.artist_id = a.id
    LEFT JOIN albums al ON t.album_id = al.id WHERE t.id = ?], first
    result row ([result[0] if result else None]): the track row, the
    artist's name and the album's title. *)
Definition track_join (k : Z) (artists : list artist_row)
  (albums : list album_row) (rows : list track_row)
  : option (track_row * option string * option string) :=
  match filter (fun r => Z.eqb (tk_id r) k) rows with
  | [] => None
  | r :: _ =>
      let artist_name :=
        match filter (fun a => sql_eq_opt (tk_artist_id r) (Some (a_id a))) artists with
        | [] => None
        | a :: _ => Some (a_name a)
        end in
      let album_title :=
        match filter (fun al => sql_eq_opt (tk_album_id r) (Some (al_id al))) albums with
        | [] => None
        | al :: _ => Some (al_title al)
        end in
      Some (r, artist_name, album_title)
  end.




Definition path_in (p : string) (media : list string) : bool :=
  existsb (String.eqb p) media.

(** [os.remove(p)] on the set of media files. *)
Definition remove_path (p : string) (media : list string) : list string :=
  filter (fun x => negb (String.eqb x p)) media.

(** [Track.delete]: remove the audio file and the cover when they exist,
    then [DELETE FROM tracks WHERE id = ?]. The [playlist_tracks] rows of
    the track stay (no cascade, see [artist_delete]). *)
Definition track_delete (k : Z) (artists : list artist_row)
  (albums : list album_row) (media : list string) (rows : list track_row)
  : list string * list track_row * Z :=
  let media' :=
    match track_join k artists albums rows with
    | Some (r, _, _) =>
        let m1 := if path_in (tk_file_path r) media
                  then remove_path (tk_file_path r) media else media in
        match tk_cover_path r with
        | Some c => if negb (String.eqb c "") && path_in c m1
                    then remove_path c m1 else m1
        | None => m1
        end
    | None => media
    end in
  (media', filter (fun r => negb (Z.eqb (tk_id r) k)) rows,
   write_result 0 (Z.of_nat (length (filter (fun r => Z.eqb (tk_id r) k) rows)))).

(** The columns of a [tracks] row that [get_tracks] reads. *)
Definition to_ref (r : track_row) : track_ref :=
  mk_track_ref (tk_id r) (tk_title r) (tk_artist_id r) (tk_duration r).

(** The [albums] rows and their AUTOINCREMENT counter; [albums] has no
    UNIQUE column besides its id. *)
Record albums_table := mk_albums {
  al_rows : list album_row;
  al_seq : Z
}.

Definition album_max_id (rows : list album_row) : Z :=
  fold_right (fun r m => Z.max (al_id r) m) 0 rows.

(** [Album.get_by_title_and_artist] and the SELECT of
    [Track._get_or_create_album]: [WHERE title = ? AND artist_id = ?]. *)
Definition get_by_title_and_artist (title : string) (artist_id : option Z)
  (t : albums_table) : option album_row :=
  match filter (fun r => String.eqb (al_title r) title
                         && sql_eq_opt (al_artist_id r) artist_id) (al_rows t) with
  | [] => None
  | r :: _ => Some r
  end.

(** [INSERT INTO albums (title, artist_id, year) VALUES (?, ?, ?)]:
    [Album.add], and with [year] NULL the insert of
    [Track._get_or_create_album]. *)
Definition album_insert (title : string) (artist_id year : option Z)
  (t : albums_table) : albums_table * exec_out :=
  let id := Z.max (al_seq t) (album_max_id (al_rows t)) + 1 in
  (mk_albums (al_rows t ++ [mk_album id title artist_id year]) id,
   OutInt (write_result id 1)).

(** [MusicLibrary.add_album] *)
Definition add_album (title : string) (artist_id year : option Z)
  (t : albums_table) : albums_table * exec_out :=
  match get_by_title_and_artist title artist_id t with
  | Some existing_album => (t, OutInt (al_id existing_album))
  | None => album_insert title artist_id year t
  end.

(** [Track._get_or_create_album] *)
Definition get_or_create_album (album_title : string) (artist_id : option Z)
  (t : albums_table) : albums_table * exec_out :=
  match get_by_title_and_artist album_title artist_id t with
  | Some r => (t, OutInt (al_id r))
  | None => album_insert album_title artist_id None t
  end.

End LibraryModel.

(** ** Column management of the gateway (database_manager.py) *)

Module StorageColumns.
Import Storage.
Local Open Scope string_scope.
Local Open Scope list_scope.
Local Open Scope Z_scope.

(** [ALTER TABLE t ADD COLUMN c type]: a missing table or an existing
    column is an [OperationalError]. *)
Definition alter_add_column (t c : string) (db : db_file) : option db_file :=
  match assoc t db with
  | Some tb =>
      if str_in c (tb_cols tb) then None
      else Some (assoc_put t (mk_table (tb_cols tb ++ [c]) (tb_keys tb) (tb_rows tb)) db)
  | None => None
  end.

(** [execute] on the ALTER statement. *)
Definition execute_alter (p t c : string) : io exec_out :=
  _ <- connect p ;;
  odb <- read_db p ;;
  match odb with
  | None => ret (OutRows [])
  | Some db =>
      match alter_add_column t c db with
      | None => ret (OutRows [])
      | Some db' =>
          fault <- tick ;;
          if fault then ret (OutRows [])
          else _ <- write_db p db' ;; ret (OutInt (write_result 0 (-1)))
      end
  end.

(** [add_column]: [except sqlite3.OperationalError: pass]. *)
Definition add_column (p t c ty : string) : io unit :=
  _ <- try_ (execute_alter p t c)
         (fun e => match e with
                   | OperationalError => ret (OutRows [])
                   | _ => raise e
                   end) ;;
  ret tt.

(** [ensure_column_exists] *)
Definition ensure_column_exists (p t c ty : string) : io unit :=
  info <- table_info p t ;;
  match info with
  | OutInt _ =>
      (* [for col in self.table_info(table)] iterates over an int *)
      raise TypeError
  | OutRows cols =>
      names <- map_io (get_key "name") cols ;;
      if str_in c (map text_of names) then ret tt else add_column p t c ty
  end.

End StorageColumns.

(* ================================================================== *)
(** * Proofs *)

(** Turns the boolean comparisons of the SQL conditions into cases. *)
Ltac zcases :=
  repeat match goal with
  | |- context [Z.eqb ?a ?b] => destruct (Z.eqb_spec a b)
  | |- context [Z.ltb ?a ?b] => destruct (Z.ltb_spec a b)
  | |- context [Z.leb ?a ?b] => destruct (Z.leb_spec a b)
  | H : context [Z.eqb ?a ?b] |- _ => destruct (Z.eqb_spec a b)
  | H : context [Z.ltb ?a ?b] |- _ => destruct (Z.ltb_spec a b)
  | H : context [Z.leb ?a ?b] |- _ => destruct (Z.leb_spec a b)
  end; simpl in *.


(** ** General list facts *)

Module ListFacts.

Lemma NoDup_map_transfer {A B C} (f : A -> B) (h : A -> C) (l : list A) :
  NoDup (map f l) ->
  (forall x y, In x l -> In y l -> h x = h y -> f x = f y) ->
  NoDup (map h l).
Proof.
  induction l as [|a l IH]; simpl; intros Hnd Hinj; constructor.
  - inversion Hnd as [|? ? Hnin Hnd']; subst.
    intros Hin. apply in_map_iff in Hin as [y [Hy Hyl]].
    apply Hnin. apply in_map_iff. exists y. split; [|exact Hyl].
    symmetry. apply Hinj; auto.
  - inversion Hnd; subst. apply IH; auto.
Qed.

Lemma NoDup_map_inj_on {A B} (f : A -> B) (l : list A) x y :
  NoDup (map f l) -> In x l -> In y l -> f x = f y -> x = y.
Proof.
  induction l as [|a l IH]; simpl; [tauto|].
  intros Hnd Hx Hy Hf. inversion Hnd as [|? ? Hnin Hnd']; subst.
  destruct Hx as [<-|Hx], Hy as [<-|Hy]; auto.
  - exfalso. apply Hnin. rewrite Hf. apply in_map; auto.
  - exfalso. apply Hnin. rewrite <- Hf. apply in_map; auto.
Qed.

Lemma NoDup_snoc {A} (l : list A) x :
  NoDup l -> ~ In x l -> NoDup (l ++ [x]).
Proof.
  intros Hnd Hnin.
  apply Permutation_NoDup with (x :: l).
  - apply Permutation_cons_append.
  - constructor; auto.
Qed.

Lemma NoDup_map_filter {A B} (f : A -> B) (P : A -> bool) (l : list A) :
  NoDup (map f l) -> NoDup (map f (filter P l)).
Proof.
  intros Hnd. apply NoDup_map_transfer with (f := f); [|auto].
  induction l as [|a l IH]; simpl in *; [constructor|].
  inversion Hnd as [|? ? Hnin Hnd']; subst.
  destruct (P a); simpl; [constructor|]; auto.
  intros Hin. apply Hnin. apply in_map_iff in Hin as [y [Hy Hyl]].
  apply filter_In in Hyl as [Hyl _]. rewrite <- Hy. apply in_map; auto.
Qed.

(** Multisets of positions: a duplicate-free list of [N] values in
    [1..N] is a permutation of [1..N]. *)
Lemma dense_permutation (l : list Z) :
  NoDup l ->
  (forall x, In x l -> 1 <= x <= Z.of_nat (length l)) ->
  Permutation l (map Z.of_nat (seq 1 (length l))).
Proof.
  intros Hnd Hr. apply NoDup_Permutation_bis; auto.
  - rewrite length_map, length_seq. lia.
  - intros x Hx. specialize (Hr x Hx). apply in_map_iff.
    exists (Z.to_nat x). split; [lia|]. apply in_seq. lia.
Qed.

End ListFacts.

(** ** The ordering engine, one playlist at a time *)

Module PlaylistFacts.
Import PlaylistModel ListFacts.


Lemma members_map (g : pt_row -> pt_row) p t :
  (forall r, playlist_id (g r) = playlist_id r) ->
  members p (map g t) = map g (members p t).
Proof.
  intros Hg. unfold members. rewrite filter_map_swap. f_equal.
  apply filter_ext. intros r. now rewrite Hg.
Qed.

Lemma update_row_pid cond f r :
  playlist_id (update_row cond f r) = playlist_id r.
Proof. unfold update_row. now destruct (cond r). Qed.

Lemma update_row_tid cond f r :
  track_id (update_row cond f r) = track_id r.
Proof. unfold update_row. now destruct (cond r). Qed.

Lemma position_update_row cond f r :
  position (update_row cond f r) =
  if cond r then f (position r) else position r.
Proof. unfold update_row. now destruct (cond r). Qed.

Lemma members_update q cond f t :
  members q (fst (sql_update cond f t)) =
  map (update_row cond f) (members q t).
Proof. simpl. apply members_map. apply update_row_pid. Qed.

(** An update guarded by [playlist_id = p] leaves every other playlist
    alone. *)
Lemma members_update_other p q cond f t :
  (forall r, cond r = true -> playlist_id r = p) -> q <> p ->
  members q (fst (sql_update cond f t)) = members q t.
Proof.
  intros Hc Hq. rewrite members_update. rewrite <- map_id.
  apply map_ext_in. intros r Hr. unfold members in Hr.
  apply filter_In in Hr as [_ Hr]. apply Z.eqb_eq in Hr.
  unfold update_row. destruct (cond r) eqn:E; auto.
  apply Hc in E. congruence.
Qed.

Lemma members_delete p q k t :
  members q (sql_delete p k t) =
  if Z.eqb q p then filter (fun r => negb (Z.eqb (track_id r) k)) (members q t)
  else members q t.
Proof.
  unfold members, sql_delete.
  induction t as [|r t IH]; simpl; [now destruct (Z.eqb q p)|].
  destruct (Z.eqb_spec (playlist_id r) p), (Z.eqb_spec (track_id r) k),
    (Z.eqb_spec q p), (Z.eqb_spec (playlist_id r) q); subst; simpl in *;
    try rewrite IH; try rewrite Z.eqb_refl; simpl;
    repeat match goal with
    | H : ?x <> ?x |- _ => contradiction
    | |- context [Z.eqb ?a ?b] => destruct (Z.eqb_spec a b); simpl
    end; try congruence; auto.
Qed.

Lemma members_app p t u :
  members p (t ++ u) = members p t ++ members p u.
Proof. unfold members. apply filter_app. Qed.

Lemma select_position_members p k t :
  select_position p k t =
  map position (filter (fun r => Z.eqb (track_id r) k) (members p t)).
Proof.
  unfold select_position, members.
  induction t as [|r t IH]; simpl; auto.
  destruct (Z.eqb (playlist_id r) p) eqn:E1, (Z.eqb (track_id r) k) eqn:E2;
    simpl; rewrite ?E1, ?E2; simpl; now rewrite IH.
Qed.

Lemma has_key_members p k t :
  has_key p k t = true <-> In k (map track_id (members p t)).
Proof.
  unfold has_key, members. rewrite existsb_exists, in_map_iff.
  split.
  - intros [r [Hr Hb]]. apply andb_prop in Hb as [H1 H2].
    apply Z.eqb_eq in H1, H2. exists r. split; auto.
    apply filter_In. split; auto. now apply Z.eqb_eq.
  - intros [r [Hk Hr]]. apply filter_In in Hr as [Hr Hp].
    exists r. split; auto. rewrite Hp. simpl. now apply Z.eqb_eq.
Qed.

(** What [select_position] found: the row of the pair and its position. *)
Lemma select_position_hit p k t c rest :
  select_position p k t = c :: rest ->
  exists r, In r (members p t) /\ track_id r = k /\ position r = c.
Proof.
  rewrite select_position_members. intros H.
  destruct (filter (fun r => Z.eqb (track_id r) k) (members p t))
    as [|r l] eqn:E; simpl in H; [discriminate|].
  injection H as Hc _. exists r.
  assert (Hr : In r (filter (fun r => Z.eqb (track_id r) k) (members p t)))
    by (rewrite E; now left).
  apply filter_In in Hr as [Hr Hk]. apply Z.eqb_eq in Hk. auto.
Qed.

Lemma select_position_miss p k t :
  ~ In k (map track_id (members p t)) -> select_position p k t = [].
Proof.
  intros Hn. rewrite select_position_members.
  destruct (filter (fun r => Z.eqb (track_id r) k) (members p t))
    as [|r l] eqn:E; auto.
  exfalso. assert (Hr : In r (filter (fun r => Z.eqb (track_id r) k)
                                     (members p t))) by (rewrite E; now left).
  apply filter_In in Hr as [Hr Hk]. apply Z.eqb_eq in Hk. subst.
  apply Hn, in_map; auto.
Qed.

Lemma members_pid p t r : In r (members p t) -> playlist_id r = p.
Proof.
  unfold members. intros H. apply filter_In in H as [_ H].
  now apply Z.eqb_eq.
Qed.

Lemma length_filter_remove_one (l : table) k r :
  NoDup (map track_id l) -> In r l -> track_id r = k ->
  length (filter (fun r => negb (Z.eqb (track_id r) k)) l) = (length l - 1)%nat.
Proof.
  revert r. induction l as [|a l IH]; simpl; [tauto|].
  intros r Hnd Hr Hk. inversion Hnd as [|? ? Hnin Hnd']; subst.
  destruct Hr as [<-|Hr].
  - rewrite Z.eqb_refl. simpl.
    assert (forall x, In x l -> negb (Z.eqb (track_id x) (track_id a)) = true).
    { intros x Hx. destruct (Z.eqb_spec (track_id x) (track_id a)); auto.
      exfalso. apply Hnin. rewrite <- e. apply in_map; auto. }
    rewrite (filter_ext_in _ (fun _ => true)); auto.
    rewrite filter_true. lia.
  - destruct (Z.eqb_spec (track_id a) (track_id r)).
    + exfalso. apply Hnin. rewrite e. apply in_map; auto.
    + simpl. rewrite (IH r); auto. destruct l; simpl in *; [tauto|lia].
Qed.

End PlaylistFacts.

Module PlaylistInvariant.
Import PlaylistModel ListFacts PlaylistFacts.

Lemma dense_map (l : table) (g : pt_row -> pt_row) :
  NoDup (map track_id l) -> NoDup (map position l) ->
  (forall r, track_id (g r) = track_id r) ->
  (forall r1 r2, In r1 l -> In r2 l ->
     position (g r1) = position (g r2) -> position r1 = position r2) ->
  (forall r, In r l -> 1 <= position (g r) <= Z.of_nat (length l)) ->
  dense (map g l).
Proof.
  intros Ht Hp Hg Hinj Hr. split; [|split].
  - rewrite map_map. rewrite (map_ext _ track_id); auto.
  - rewrite map_map. apply NoDup_map_transfer with (f := position); auto.
  - intros x Hx. rewrite map_map, in_map_iff in Hx. destruct Hx as [r [<- Hx]].
    rewrite length_map. now apply Hr.
Qed.

Lemma filter_single (l : table) k r :
  NoDup (map track_id l) -> In r l -> track_id r = k ->
  filter (fun r => Z.eqb (track_id r) k) l = [r].
Proof.
  revert r. induction l as [|a l IH]; simpl; [tauto|].
  intros r Hnd Hr Hk. inversion Hnd as [|? ? Hnin Hnd']; subst.
  destruct Hr as [<-|Hr].
  - rewrite Z.eqb_refl. f_equal.
    rewrite (filter_ext_in _ (fun _ => false)); [apply filter_false|].
    intros x Hx. destruct (Z.eqb_spec (track_id x) (track_id a)); auto.
    exfalso. apply Hnin. rewrite <- e. apply in_map; auto.
  - destruct (Z.eqb_spec (track_id a) (track_id r)).
    + exfalso. apply Hnin. rewrite e. apply in_map; auto.
    + now apply IH.
Qed.

Lemma select_position_single p k t r :
  NoDup (map track_id (members p t)) -> In r (members p t) -> track_id r = k ->
  select_position p k t = [position r].
Proof.
  intros Hnd Hr Hk. rewrite select_position_members.
  now rewrite (filter_single _ k r).
Qed.

Lemma members_nil p : members p [] = [].
Proof. reflexivity. Qed.

Lemma Inv_nil : Inv [].
Proof.
  intros p. rewrite members_nil. unfold dense. simpl.
  split; [constructor|split; [constructor|tauto]].
Qed.

(** [add_track] *)

Lemma add_track_members p k t :
  ~ In k (map track_id (members p t)) ->
  exists rid,
    members p (fst (add_track p k t)) =
    map (update_row (fun r => Z.eqb (playlist_id r) p) (fun x => x + 1))
        (members p t) ++ [mk_pt rid p k 1].
Proof.
  intros Hn. unfold add_track. simpl. unfold sql_insert.
  set (t1 := map (update_row (fun r => Z.eqb (playlist_id r) p)
                             (fun x => x + 1)) t).
  assert (Hm : members p t1 =
               map (update_row (fun r => Z.eqb (playlist_id r) p)
                               (fun x => x + 1)) (members p t))
    by (apply members_map, update_row_pid).
  destruct (has_key p k t1) eqn:E.
  - exfalso. apply has_key_members in E. rewrite Hm, map_map in E.
    apply Hn. erewrite map_ext; [exact E|]. intros r. simpl.
    symmetry. apply update_row_tid.
  - exists (max_rowid t1 + 1). simpl. rewrite members_app, Hm.
    unfold members at 2. simpl. now rewrite Z.eqb_refl.
Qed.

Lemma add_track_other p q k t :
  q <> p -> members q (fst (add_track p k t)) = members q t.
Proof.
  intros Hq. unfold add_track. simpl. unfold sql_insert.
  set (t1 := map (update_row (fun r => Z.eqb (playlist_id r) p)
                             (fun x => x + 1)) t).
  assert (Hm : members q t1 = members q t).
  { apply (members_update_other p q _ (fun x => x + 1) t); auto.
    intros r Hr. now apply Z.eqb_eq. }
  destruct (has_key p k t1); simpl; auto.
  rewrite members_app, Hm. unfold members at 2. simpl.
  destruct (Z.eqb_spec p q); [congruence|]. apply app_nil_r.
Qed.

Lemma add_track_dense p k t :
  dense (members p t) -> ~ In k (map track_id (members p t)) ->
  dense (members p (fst (add_track p k t))).
Proof.
  intros [Ht [Hp Hr]] Hn. destruct (add_track_members p k t Hn) as [rid ->].
  set (g := update_row (fun r => Z.eqb (playlist_id r) p) (fun x => x + 1)).
  assert (Hg : forall r, In r (members p t) -> position (g r) = position r + 1).
  { intros r Hin. unfold g. rewrite position_update_row.
    rewrite (members_pid _ _ _ Hin), Z.eqb_refl. reflexivity. }
  split; [|split].
  - rewrite map_app, map_map. simpl.
    rewrite (map_ext _ track_id) by apply update_row_tid.
    now apply NoDup_snoc.
  - rewrite map_app, map_map. simpl. apply NoDup_snoc.
    + apply NoDup_map_transfer with (f := position); auto.
      intros x y Hx Hy. rewrite (Hg x Hx), (Hg y Hy). lia.
    + intros Hin. apply in_map_iff in Hin as [r [Hr1 Hin]].
      rewrite (Hg r Hin) in Hr1.
      assert (1 <= position r) by (apply Hr, in_map; auto). lia.
  - intros x Hx. rewrite length_app, length_map, Nat2Z.inj_add.
    change (length [mk_pt rid p k 1]) with 1%nat.
    rewrite map_app, map_map in Hx. apply in_app_or in Hx.
    destruct Hx as [Hx|[<-|[]]]; [|simpl; lia].
    apply in_map_iff in Hx as [r [<- Hin]]. rewrite (Hg r Hin).
    assert (1 <= position r <= Z.of_nat (length (members p t)))
      by (apply Hr, in_map; auto). lia.
Qed.

(** [remove_track] *)


Lemma remove_track_members p k t r :
  NoDup (map track_id (members p t)) -> In r (members p t) -> track_id r = k ->
  members p (fst (remove_track p k t)) =
  map (shift_down p (position r))
      (filter (fun r' => negb (Z.eqb (track_id r') k)) (members p t)).
Proof.
  intros Hnd Hr Hk. unfold remove_track.
  rewrite (select_position_single p k t r) by auto. simpl.
  rewrite members_map by apply update_row_pid.
  rewrite members_delete, Z.eqb_refl. reflexivity.
Qed.

Lemma remove_track_other p q k t :
  q <> p -> members q (fst (remove_track p k t)) = members q t.
Proof.
  intros Hq. unfold remove_track.
  destruct (select_position p k t) as [|c rest]; [reflexivity|].
  simpl. rewrite members_map by apply update_row_pid.
  rewrite members_delete. destruct (Z.eqb_spec q p); [congruence|].
  rewrite <- map_id. apply map_ext_in. intros r' Hr'.
  unfold update_row. rewrite (members_pid _ _ _ Hr').
  destruct (Z.eqb_spec q p); [congruence|]. reflexivity.
Qed.

Lemma remove_track_absent p k t :
  ~ In k (map track_id (members p t)) -> fst (remove_track p k t) = t.
Proof.
  intros Hn. unfold remove_track. now rewrite select_position_miss.
Qed.

(** Two rows of a playlist with the same position are the same row. *)
Lemma same_position_same_row (l : table) r1 r2 :
  NoDup (map position l) -> In r1 l -> In r2 l ->
  position r1 = position r2 -> r1 = r2.
Proof. intros. eapply NoDup_map_inj_on; eauto. Qed.

Lemma remove_track_dense p k t r :
  dense (members p t) -> In r (members p t) -> track_id r = k ->
  dense (members p (fst (remove_track p k t))).
Proof.
  intros [Ht [Hp Hrg]] Hr Hk.
  rewrite (remove_track_members p k t r) by auto.
  set (l0 := filter (fun r' => negb (Z.eqb (track_id r') k)) (members p t)).
  assert (Hl0 : forall r', In r' l0 ->
                In r' (members p t) /\ position r' <> position r /\
                1 <= position r' <= Z.of_nat (length (members p t))).
  { intros r' Hr'. unfold l0 in Hr'. apply filter_In in Hr' as [Hin Hneg].
    repeat split; auto; try (apply Hrg, in_map; auto).
    intros Heq. assert (r' = r) by (eapply same_position_same_row; eauto).
    subst. rewrite Z.eqb_refl in Hneg. discriminate. }
  assert (Hlen : length l0 = (length (members p t) - 1)%nat)
    by (apply (length_filter_remove_one _ k r); auto).
  assert (Hpos : forall r', In r' l0 ->
           position (shift_down p (position r) r') =
           if Z.ltb (position r) (position r') then position r' - 1
           else position r').
  { intros r' Hr'. unfold shift_down. rewrite position_update_row.
    destruct (Hl0 r' Hr') as [Hin _].
    now rewrite (members_pid _ _ _ Hin), Z.eqb_refl. }
  assert (Hrr : 1 <= position r <= Z.of_nat (length (members p t)))
    by (apply Hrg, in_map; auto).
  apply dense_map.
  - apply NoDup_map_filter; auto.
  - apply NoDup_map_filter; auto.
  - intros. apply update_row_tid.
  - intros r1 r2 H1 H2. rewrite (Hpos r1 H1), (Hpos r2 H2).
    destruct (Hl0 r1 H1) as [_ [Hn1 _]], (Hl0 r2 H2) as [_ [Hn2 _]].
    zcases; lia.
  - intros r' Hr'. rewrite (Hpos r' Hr'), Hlen.
    destruct (Hl0 r' Hr') as [_ [Hn Hb]].
    rewrite Nat2Z.inj_sub by lia. zcases; lia.
Qed.

(** [change_track_position] *)



Lemma change_track_position_members p k np t r :
  NoDup (map track_id (members p t)) -> In r (members p t) -> track_id r = k ->
  position r <> np ->
  members p (fst (change_track_position p k np t)) =
  map (place p k np) (map (shift_range p (position r) np) (members p t)).
Proof.
  intros Hnd Hr Hk Hne. unfold change_track_position.
  rewrite (select_position_single p k t r) by auto.
  destruct (Z.eqb_spec (position r) np); [contradiction|].
  unfold shift_range. destruct (Z.ltb (position r) np); simpl;
    rewrite !members_map by apply update_row_pid; reflexivity.
Qed.

Lemma change_track_position_other p q k np t :
  q <> p -> members q (fst (change_track_position p k np t)) = members q t.
Proof.
  intros Hq. unfold change_track_position.
  destruct (select_position p k t) as [|c rest]; [reflexivity|].
  destruct (Z.eqb c np); [reflexivity|].
  assert (Hid : forall (cond : pt_row -> bool) f (l : table),
            (forall r, In r l -> cond r = true -> playlist_id r = p) ->
            (forall r, In r l -> playlist_id r = q) ->
            map (update_row cond f) l = l).
  { intros cond f l Hc Hl. transitivity (map (fun x => x) l); [|apply map_id].
    apply map_ext_in.
    intros r Hr. unfold update_row. destruct (cond r) eqn:E; auto.
    apply Hc in E; auto. specialize (Hl r Hr). congruence. }
  simpl. rewrite members_map by apply update_row_pid.
  destruct (Z.ltb c np); simpl; rewrite members_map by apply update_row_pid;
    rewrite !Hid; auto;
    try (intros r Hr; apply members_pid in Hr; exact Hr);
    try (intros r Hr H; apply andb_prop in H as [H _];
         try apply andb_prop in H as [H _]; now apply Z.eqb_eq);
    intros r Hr; apply in_map_iff in Hr as [r0 [<- Hr0]];
    rewrite update_row_pid; now apply members_pid in Hr0.
Qed.

Lemma change_track_position_absent p k np t :
  ~ In k (map track_id (members p t)) ->
  fst (change_track_position p k np t) = t.
Proof.
  intros Hn. unfold change_track_position. now rewrite select_position_miss.
Qed.

Lemma change_track_position_same p k t r :
  NoDup (map track_id (members p t)) -> In r (members p t) -> track_id r = k ->
  fst (change_track_position p k (position r) t) = t.
Proof.
  intros Hnd Hr Hk. unfold change_track_position.
  rewrite (select_position_single p k t r) by auto.
  now rewrite Z.eqb_refl.
Qed.

Lemma change_track_position_dense p k np t r :
  dense (members p t) -> In r (members p t) -> track_id r = k ->
  position r <> np -> 1 <= np <= Z.of_nat (length (members p t)) ->
  dense (members p (fst (change_track_position p k np t))).
Proof.
  intros [Ht [Hp Hrg]] Hr Hk Hne Hnp.
  rewrite (change_track_position_members p k np t r) by auto.
  rewrite map_map.
  set (c := position r) in *.
  assert (Hrr : 1 <= c <= Z.of_nat (length (members p t)))
    by (apply Hrg, in_map; auto).
  assert (Hshape : forall r', In r' (members p t) ->
            (track_id r' = k -> r' = r) /\ (track_id r' <> k -> position r' <> c) /\
            1 <= position r' <= Z.of_nat (length (members p t))).
  { intros r' Hr'. split; [|split].
    - intros Hk'. apply (NoDup_map_inj_on track_id (members p t)); auto.
      congruence.
    - intros Hk' Hc. apply Hk'. rewrite <- Hk. f_equal.
      apply (same_position_same_row (members p t)); auto.
    - apply Hrg, in_map; auto. }
  assert (Hpos : forall r', In r' (members p t) ->
    position (place p k np (shift_range p c np r')) =
    if Z.eqb (track_id r') k then np
    else if Z.ltb c np then
      (if Z.ltb c (position r') && Z.leb (position r') np
       then position r' - 1 else position r')
    else
      (if Z.leb np (position r') && Z.ltb (position r') c
       then position r' + 1 else position r')).
  { intros r' Hr'. unfold place, shift_range.
    pose proof (members_pid _ _ _ Hr') as Hpid.
    destruct (Z.ltb c np);
      rewrite position_update_row, update_row_pid, update_row_tid, Hpid,
        Z.eqb_refl; simpl;
      destruct (Z.eqb (track_id r') k); auto;
      rewrite position_update_row, Hpid, Z.eqb_refl; reflexivity. }
  apply dense_map; auto.
  - intros r'. unfold place, shift_range.
    destruct (Z.ltb c np); rewrite !update_row_tid; reflexivity.
  - intros r1 r2 H1 H2. rewrite (Hpos r1 H1), (Hpos r2 H2).
    destruct (Hshape r1 H1) as [E1 [N1 B1]], (Hshape r2 H2) as [E2 [N2 B2]].
    destruct (Z.eqb_spec (track_id r1) k), (Z.eqb_spec (track_id r2) k).
    + now rewrite (E1 e), (E2 e0).
    + specialize (N2 n). zcases; lia.
    + specialize (N1 n). zcases; lia.
    + specialize (N1 n). specialize (N2 n0). zcases; lia.
  - intros r' H'. rewrite (Hpos r' H').
    destruct (Hshape r' H') as [_ [N1 B1]].
    destruct (Z.eqb_spec (track_id r') k); [lia|].
    specialize (N1 n). zcases; lia.
Qed.

(** Every call that [op_ok] admits keeps every playlist dense. *)
Lemma apply_op_Inv t o :
  Inv t -> op_ok t o = true -> Inv (apply_op t o).
Proof.
  intros Hinv Hok q. destruct o as [p k | p k | p k np]; simpl in *.
  - destruct (Z.eqb_spec q p) as [->|Hq].
    + apply add_track_dense; auto. intros Hin.
      apply has_key_members in Hin. rewrite Hin in Hok. discriminate.
    + rewrite add_track_other; auto.
  - destruct (Z.eqb_spec q p) as [->|Hq].
    + destruct (in_dec Z.eq_dec k (map track_id (members p t))) as [Hin|Hn].
      * apply in_map_iff in Hin as [r [Hk Hr]].
        eapply remove_track_dense; eauto.
      * now rewrite remove_track_absent.
    + rewrite remove_track_other; auto.
  - destruct (Z.eqb_spec q p) as [->|Hq].
    + destruct (in_dec Z.eq_dec k (map track_id (members p t))) as [Hin|Hn].
      * apply in_map_iff in Hin as [r [Hk Hr]].
        destruct (Z.eqb_spec (position r) np) as [He|Hne].
        -- subst np. rewrite (change_track_position_same p k t r); auto.
           apply Hinv.
        -- apply andb_prop in Hok as [H1 H2].
           apply Z.leb_le in H1. apply Z.leb_le in H2.
           eapply change_track_position_dense; eauto.
      * now rewrite change_track_position_absent.
    + rewrite change_track_position_other; auto.
Qed.

Lemma run_ops_Inv ops t :
  Inv t -> ops_ok t ops = true -> Inv (run_ops ops t).
Proof.
  revert t. induction ops as [|o ops IH]; simpl; auto.
  intros t Hinv Hok. apply andb_prop in Hok as [H1 H2].
  apply IH; auto. now apply apply_op_Inv.
Qed.

End PlaylistInvariant.

(** ** get_tracks after a run of add_track *)

Module PlaylistListing.
Import PlaylistModel ListFacts PlaylistFacts PlaylistInvariant.

Lemma add_all_members p ts t :
  NoDup ts -> (forall k, In k ts -> ~ In k (map track_id (members p t))) ->
  map pair_of (members p (add_all p ts t)) =
  map (fun r => (track_id r, position r + Z.of_nat (length ts))) (members p t)
  ++ stack ts.
Proof.
  revert t. induction ts as [|k ks IH]; intros t Hnd Hfresh; simpl.
  - rewrite app_nil_r. unfold pair_of. apply map_ext. intros r. f_equal. lia.
  - inversion Hnd as [|? ? Hnin Hnd']; subst.
    assert (Hk : ~ In k (map track_id (members p t))) by (apply Hfresh; now left).
    destruct (add_track_members p k t Hk) as [rid Hm].
    change (add_all p (k :: ks) t) with (add_all p ks (fst (add_track p k t))).
    rewrite IH; auto.
    + rewrite Hm, map_app, map_map, <- app_assoc. simpl. f_equal.
      apply map_ext_in. intros r Hr. rewrite update_row_tid, position_update_row.
      rewrite (members_pid _ _ _ Hr), Z.eqb_refl. f_equal. lia.
    + intros k' Hk'. rewrite Hm, map_app, map_map. simpl.
      intros Hin. apply in_app_or in Hin as [Hin|[Heq|[]]].
      * apply (Hfresh k'); [now right|].
        rewrite (map_ext _ track_id) in Hin by apply update_row_tid. exact Hin.
      * subst. contradiction.
Qed.

Lemma left_join_one artists pt tr :
  NoDup (map ar_id artists) ->
  exists o, left_join_artist artists pt tr = [o] /\
            o_id o = tr_id tr /\ o_position o = position pt.
Proof.
  intros Hnd. unfold left_join_artist.
  destruct (filter (fun a => same_id (tr_artist_id tr) (ar_id a)) artists)
    as [|a [|b l]] eqn:E.
  - eexists. split; [reflexivity|]. simpl. auto.
  - eexists. split; [reflexivity|]. simpl. auto.
  - exfalso.
    assert (Ha : In a (filter (fun a => same_id (tr_artist_id tr) (ar_id a)) artists))
      by (rewrite E; left; auto).
    assert (Hb : In b (filter (fun a => same_id (tr_artist_id tr) (ar_id a)) artists))
      by (rewrite E; right; left; auto).
    assert (Hnd' : NoDup (map ar_id (filter (fun a => same_id (tr_artist_id tr)
                                                         (ar_id a)) artists)))
      by (apply NoDup_map_filter; auto).
    rewrite E in Hnd'. simpl in Hnd'.
    apply filter_In in Ha as [_ Ha], Hb as [_ Hb].
    destruct (tr_artist_id tr) as [x|]; simpl in *; [|discriminate].
    apply Z.eqb_eq in Ha, Hb. inversion Hnd'. apply H1. left. congruence.
Qed.

Lemma join_track_one artists tracks pt :
  NoDup (map tr_id tracks) -> In (track_id pt) (map tr_id tracks) ->
  NoDup (map ar_id artists) ->
  exists o, join_track artists tracks pt = [o] /\
            o_id o = track_id pt /\ o_position o = position pt.
Proof.
  intros Hnd Hin Hart. unfold join_track.
  induction tracks as [|tr trs IH]; simpl in *; [tauto|].
  inversion Hnd as [|? ? Hnin Hnd']; subst.
  destruct (Z.eqb_spec (tr_id tr) (track_id pt)) as [He|Hne].
  - destruct (left_join_one artists pt tr Hart) as [o [Ho [Hi Hp]]].
    exists o. rewrite Ho. simpl.
    assert (Hrest : flat_map (fun tr0 => if Z.eqb (tr_id tr0) (track_id pt)
                    then left_join_artist artists pt tr0 else []) trs = []).
    { clear IH Hin Hnd Hnd'. induction trs as [|tr' trs IH']; simpl; auto.
      destruct (Z.eqb_spec (tr_id tr') (track_id pt)).
      - exfalso. apply Hnin. left. congruence.
      - apply IH'. intros H. apply Hnin. now right. }
    rewrite Hrest. split; auto. split; congruence.
  - destruct Hin as [Hin|Hin]; [congruence|]. apply IH; auto.
Qed.

Lemma join_members artists tracks (l : table) :
  NoDup (map tr_id tracks) -> NoDup (map ar_id artists) ->
  (forall r, In r l -> In (track_id r) (map tr_id tracks)) ->
  map (fun o => (o_id o, o_position o)) (flat_map (join_track artists tracks) l)
  = map pair_of l.
Proof.
  intros Hnd Hart. induction l as [|r l IH]; intros Hin; simpl; auto.
  destruct (join_track_one artists tracks r) as [o [Ho [Hi Hp]]]; auto.
  - apply Hin. now left.
  - rewrite Ho. simpl. rewrite Hi, Hp, IH; auto.
    intros r' Hr'. apply Hin. now right.
Qed.

Lemma insert_last x (m : list track_out) :
  (forall y, In y m -> o_position y < o_position x) ->
  insert_by_position x m = m ++ [x].
Proof.
  induction m as [|y m IH]; intros H; simpl; auto.
  assert (o_position y < o_position x) by (apply H; now left).
  destruct (Z.leb_spec (o_position x) (o_position y)); [lia|].
  rewrite IH; auto. intros z Hz. apply H. now right.
Qed.

Lemma sort_decreasing (l : list track_out) :
  StronglySorted (fun a b => b < a) (map o_position l) ->
  sort_by_position l = rev l.
Proof.
  induction l as [|x l IH]; intros Hs; simpl; auto.
  apply StronglySorted_inv in Hs as [Hs Hf].
  rewrite IH; auto. apply insert_last.
  intros y Hy. apply in_rev in Hy. rewrite Forall_forall in Hf.
  apply Hf, in_map; auto.
Qed.

Lemma stack_fst ts : map fst (stack ts) = ts.
Proof. induction ts; simpl; f_equal; auto. Qed.

Lemma stack_snd ts : map snd (stack ts) = rev (one_to (length ts)).
Proof.
  induction ts as [|k ks IH]; [reflexivity|].
  change (map snd (stack (k :: ks)))
    with ((1 + Z.of_nat (length ks)) :: map snd (stack ks)).
  change (length (k :: ks)) with (S (length ks)).
  unfold one_to in *. rewrite seq_S, map_app, rev_app_distr, IH.
  cbn [map rev app]. f_equal. lia.
Qed.

Lemma stack_sorted ts :
  StronglySorted (fun a b => b < a) (map snd (stack ts)).
Proof.
  rewrite stack_snd. unfold one_to.
  induction (length ts) as [|n IH]; [constructor|].
  rewrite seq_S, map_app, rev_app_distr. simpl. constructor; auto.
  apply Forall_forall. intros y Hy. apply in_rev, in_map_iff in Hy.
  destruct Hy as [m [<- Hm]]. apply in_seq in Hm. lia.
Qed.

End PlaylistListing.

(** ** Claims about the ordering engine *)

Module PlaylistClaims.
Import PlaylistModel ListFacts PlaylistFacts PlaylistInvariant PlaylistListing.

(** C1 (as stated, refuted): adding track 10 to playlist 1 and then moving
    it to position 5 of a one-member playlist leaves the single position
    at 5, not 1; [change_track_position] never checks the target against
    the member count. *)
Lemma C1_move_out_of_range :
  ~ (forall ops p,
       Permutation (positions p (run_ops ops []))
                   (one_to (length (members p (run_ops ops []))))).
Proof.
  intros H. specialize (H [OpAdd 1 10; OpMove 1 10 5] 1).
  vm_compute in H. apply Permutation_length_1 in H. discriminate.
Qed.

(** Not part of C1's amended statement: [add_track] of a pair already in
    the playlist shifts every member first and then fails on the primary
    key, leaving position 1 empty. *)
Lemma add_track_duplicate_leaves_gap :
  positions 1 (run_ops [OpAdd 1 10; OpAdd 1 10] []) = [2].
Proof. reflexivity. Qed.

(** C1 (amended): from an empty [playlist_tracks] table, after any
    sequence of [add_track] of pairs not yet present, [remove_track], and
    [change_track_position] with a target in [1..N], the positions of
    every playlist form the multiset [{1, ..., N}], N its member count. *)
Theorem positions_dense_guarded ops p :
  ops_ok [] ops = true ->
  Permutation (positions p (run_ops ops []))
              (one_to (length (members p (run_ops ops [])))).
Proof.
  intros Hok.
  destruct (run_ops_Inv ops [] Inv_nil Hok p) as [_ [Hnd Hr]].
  unfold positions, one_to. rewrite <- (length_map position).
  apply dense_permutation; auto.
  intros x Hx. rewrite length_map. now apply Hr.
Qed.

Lemma positions_dense_guarded_witness :
  ops_ok [] [OpAdd 1 10; OpAdd 1 20; OpAdd 2 10; OpMove 1 10 1;
             OpAdd 1 30; OpRemove 1 20; OpMove 1 30 2] = true /\
  Permutation
    (positions 1 (run_ops [OpAdd 1 10; OpAdd 1 20; OpAdd 2 10; OpMove 1 10 1;
                           OpAdd 1 30; OpRemove 1 20; OpMove 1 30 2] []))
    (one_to (length (members 1
       (run_ops [OpAdd 1 10; OpAdd 1 20; OpAdd 2 10; OpMove 1 10 1;
                 OpAdd 1 30; OpRemove 1 20; OpMove 1 30 2] [])))).
Proof.
  split; [reflexivity|]. apply positions_dense_guarded. reflexivity.
Defined.

(** C5: into a playlist with no members, [add_track] of N distinct tracks
    one at a time makes [get_tracks] list exactly those tracks, the last
    added first, at positions 1, 2, ..., N. *)
Theorem get_tracks_reverse_insertion p ts artists tracks t :
  NoDup ts -> members p t = [] ->
  NoDup (map tr_id tracks) -> (forall k, In k ts -> In k (map tr_id tracks)) ->
  NoDup (map ar_id artists) ->
  map o_id (get_tracks p artists tracks (add_all p ts t)) = rev ts /\
  map o_position (get_tracks p artists tracks (add_all p ts t)) =
  one_to (length ts).
Proof.
  intros Hnd Hempty Htr Hin Hart.
  assert (Hm : map pair_of (members p (add_all p ts t)) = stack ts).
  { rewrite add_all_members; auto.
    - now rewrite Hempty.
    - intros k _. rewrite Hempty. simpl. tauto. }
  assert (Hj : map (fun o => (o_id o, o_position o))
                   (flat_map (join_track artists tracks) (members p (add_all p ts t)))
               = stack ts).
  { rewrite join_members; auto. intros r Hr. apply Hin.
    rewrite <- (stack_fst ts), <- Hm, map_map. apply in_map_iff.
    exists r. split; auto. }
  set (L := flat_map (join_track artists tracks) (members p (add_all p ts t))) in *.
  assert (Hid : map o_id L = ts).
  { rewrite <- (stack_fst ts), <- Hj, map_map. reflexivity. }
  assert (Hpos : map o_position L = map snd (stack ts)).
  { rewrite <- Hj, map_map. reflexivity. }
  unfold get_tracks. fold L.
  rewrite sort_decreasing by (rewrite Hpos; apply stack_sorted).
  rewrite !map_rev, Hid, Hpos, stack_snd, rev_involutive. auto.
Qed.

Lemma get_tracks_reverse_insertion_witness :
  let ts := [10; 20; 30] in
  let artists := [mk_artist_ref 1 "A"] in
  let tracks := [mk_track_ref 30 "c" (Some 1) (Some 200);
                 mk_track_ref 10 "a" None None;
                 mk_track_ref 20 "b" (Some 1) (Some 100)] in
  map o_id (get_tracks 7 artists tracks (add_all 7 ts [mk_pt 1 8 10 1])) = rev ts /\
  map o_position (get_tracks 7 artists tracks (add_all 7 ts [mk_pt 1 8 10 1])) =
  one_to (length ts).
Proof.
  intros ts artists tracks.
  apply get_tracks_reverse_insertion.
  - repeat constructor; simpl; intuition discriminate.
  - reflexivity.
  - repeat constructor; simpl; intuition discriminate.
  - intros k Hk. simpl in Hk |- *. intuition.
  - repeat constructor; simpl; intuition discriminate.
Defined.

(** C10: for a pair present in the playlist, [remove_track] returns the
    number of members whose position was strictly greater than the removed
    one's (the rows its last UPDATE shifted), so 0 when the removed member
    held the highest position, and 0 also when the pair is absent. *)
Theorem remove_track_returns_shifted_count p k t r :
  NoDup (map track_id (members p t)) -> In r (members p t) -> track_id r = k ->
  snd (remove_track p k t) =
    Z.of_nat (length (filter (fun r' => Z.ltb (position r) (position r'))
                             (members p t))) /\
  ((forall r', In r' (members p t) -> position r' <= position r) ->
   snd (remove_track p k t) = 0) /\
  (forall k', ~ In k' (map track_id (members p t)) ->
   snd (remove_track p k' t) = 0).
Proof.
  intros Hnd Hr Hk.
  assert (Hcount : snd (remove_track p k t) =
    Z.of_nat (length (filter (fun r' => Z.ltb (position r) (position r'))
                             (members p t)))).
  { unfold remove_track. rewrite (select_position_single p k t r) by auto.
    simpl. unfold write_result. simpl. f_equal. f_equal.
    assert (Hf : forall (a b : pt_row -> bool) (l : table),
               filter (fun x => a x && b x) l = filter b (filter a l)).
    { intros a b l. induction l as [|x l IH]; simpl; auto.
      destruct (a x) eqn:Ea, (b x) eqn:Eb; simpl; rewrite ?Ea, ?Eb;
        now rewrite IH. }
    rewrite Hf. fold (members p (sql_delete p k t)).
    rewrite members_delete, Z.eqb_refl.
    unfold members. rewrite <- Hf. fold (members p t).
    apply filter_ext_in. intros r' Hr'.
    destruct (Z.eqb_spec (track_id r') k); simpl; auto.
    assert (r' = r) by (apply (NoDup_map_inj_on track_id (members p t)); auto;
                        congruence).
    subst. symmetry. apply Z.ltb_irrefl. }
  split; [exact Hcount|split].
  - intros Hmax. rewrite Hcount.
    rewrite (filter_ext_in _ (fun _ => false)); [now rewrite filter_false|].
    intros r' Hr'. specialize (Hmax r' Hr'). apply Z.ltb_ge. lia.
  - intros k' Hn. unfold remove_track. now rewrite select_position_miss.
Qed.

Lemma remove_track_returns_shifted_count_witness :
  let t := add_all 7 [10; 20; 30] [] in
  snd (remove_track 7 20 t) =
    Z.of_nat (length (filter (fun r' => Z.ltb 2 (position r')) (members 7 t))) /\
  ((forall r', In r' (members 7 t) -> position r' <= 2) ->
   snd (remove_track 7 20 t) = 0) /\
  (forall k', ~ In k' (map track_id (members 7 t)) ->
   snd (remove_track 7 k' t) = 0).
Proof.
  intros t.
  apply (remove_track_returns_shifted_count 7 20 t (mk_pt 2 7 20 2)).
  - vm_compute. repeat constructor; simpl; intuition discriminate.
  - vm_compute. intuition.
  - reflexivity.
Defined.

End PlaylistClaims.

(** ** Claims about the duration formatters *)

Module FormatClaims.
Import Format.

Lemma format_02d_two_digits x :
  0 <= x < 100 -> format_02d x = two_digits x.
Proof.
  intros Hx. unfold format_02d, two_digits.
  destruct (Z.ltb_spec x 0); [lia|]. rewrite Z.abs_eq by lia.
  unfold decimal. destruct (Z.ltb_spec x 10) as [Hs|Hb].
  - simpl. destruct (Z.ltb_spec x 10); [|lia].
    rewrite Z.div_small, Z.mod_small by lia. reflexivity.
  - assert (Hl : 1 <= Z.log2 x).
    { change 1 with (Z.log2 2). apply Z.log2_le_mono. lia. }
    destruct (Z.to_nat (Z.log2 x)) as [|f] eqn:E; [lia|].
    simpl. destruct (Z.ltb_spec x 10); [lia|].
    destruct (Z.ltb_spec (x / 10) 10) as [_|Hc].
    + reflexivity.
    + exfalso. assert (x / 10 < 10) by (apply Z.div_lt_upper_bound; lia). lia.
Qed.

(** C6: for a non-negative duration the playlist formatter splits it into
    hours, minutes and seconds and renders [HH:MM:SS] when hours > 0 and
    [MM:SS] otherwise, minutes and seconds as exactly two digits and hours
    zero-padded to at least two; 3725 gives ["01:02:05"], 65 gives
    ["01:05"], and the façade formatter gives ["02:05"] for 125. *)
Theorem playlist_format_duration_shape d :
  0 <= d ->
  let h := d / 3600 in
  let m := (d mod 3600) / 60 in
  let s := (d mod 3600) mod 60 in
  d = 3600 * h + 60 * m + s /\ 0 <= h /\ 0 <= m < 60 /\ 0 <= s < 60 /\
  playlist_format_duration d =
    (if Z.ltb 0 h
     then format_02d h ++ ":" ++ two_digits m ++ ":" ++ two_digits s
     else two_digits m ++ ":" ++ two_digits s)%string /\
  (h < 100 -> format_02d h = two_digits h) /\
  playlist_format_duration 3725 = "01:02:05"%string /\
  playlist_format_duration 65 = "01:05"%string /\
  library_format_duration 125 = "02:05"%string.
Proof.
  intros Hd h m s.
  assert (Hr : 0 <= d mod 3600 < 3600) by (apply Z.mod_pos_bound; lia).
  assert (Hm : 0 <= m < 60).
  { unfold m. split; [apply Z.div_pos; lia|].
    apply Z.div_lt_upper_bound; lia. }
  assert (Hs : 0 <= s < 60) by (unfold s; apply Z.mod_pos_bound; lia).
  assert (Hh : 0 <= h) by (unfold h; apply Z.div_pos; lia).
  split.
  { unfold h, m, s.
    pose proof (Z.div_mod d 3600 ltac:(lia)).
    pose proof (Z.div_mod (d mod 3600) 60 ltac:(lia)). lia. }
  split; [exact Hh|]. split; [exact Hm|]. split; [exact Hs|].
  split; [|split; [|split; [reflexivity|split; reflexivity]]].
  - unfold playlist_format_duration. fold h. fold m. fold s.
    rewrite (format_02d_two_digits m), (format_02d_two_digits s) by lia.
    destruct (Z.eqb_spec h 0), (Z.ltb_spec 0 h); simpl; auto; lia.
  - intros Hlt. apply format_02d_two_digits. lia.
Qed.

Lemma playlist_format_duration_shape_witness :
  0 <= 3725 /\
  (let h := 3725 / 3600 in
   let m := (3725 mod 3600) / 60 in
   let s := (3725 mod 3600) mod 60 in
   3725 = 3600 * h + 60 * m + s /\ 0 <= h /\ 0 <= m < 60 /\ 0 <= s < 60 /\
   playlist_format_duration 3725 =
     (if Z.ltb 0 h
      then format_02d h ++ ":" ++ two_digits m ++ ":" ++ two_digits s
      else two_digits m ++ ":" ++ two_digits s)%string /\
   (h < 100 -> format_02d h = two_digits h) /\
   playlist_format_duration 3725 = "01:02:05"%string /\
   playlist_format_duration 65 = "01:05"%string /\
   library_format_duration 125 = "02:05"%string).
Proof.
  split; [lia|]. apply playlist_format_duration_shape. lia.
Defined.

(** C7: the track repository's formatter and the façade's
    [format_duration] return the same string for every integer. *)
Theorem track_and_library_formatters_agree d :
  track_format_duration d = library_format_duration d.
Proof. reflexivity. Qed.

End FormatClaims.

(** ** Claim about artist get-or-create *)

Module ArtistClaims.
Import ArtistModel.

Lemma existsb_filter_nil {A} (P : A -> bool) l :
  filter P l = [] -> existsb P l = false.
Proof.
  induction l as [|a l IH]; simpl; auto.
  destruct (P a); [discriminate|]. auto.
Qed.

Lemma max_id_nonneg rows : 0 <= max_id rows.
Proof. induction rows; simpl; lia. Qed.

(** C8: with at most one row per name (the UNIQUE constraint), two
    sequential [add_artist] calls with one name return the same id, the
    second call changes nothing, exactly one row carries the name and that
    row's id is the one returned, rows of other names are untouched, and
    at most one row was created. *)
Theorem add_artist_twice name t :
  (length (filter (named name) (a_rows t)) <= 1)%nat ->
  let (t1, r1) := add_artist name t in
  let (t2, r2) := add_artist name t1 in
  r1 = r2 /\ t2 = t1 /\
  (exists row, filter (named name) (a_rows t2) = [row] /\ r1 = OutInt (a_id row)) /\
  filter (fun r => negb (named name r)) (a_rows t2) =
    filter (fun r => negb (named name r)) (a_rows t) /\
  (length (a_rows t2) <= length (a_rows t) + 1)%nat.
Proof.
  intros Hu. unfold add_artist, get_by_name.
  destruct (filter (named name) (a_rows t)) as [|r [|r' rest]] eqn:E.
  - unfold add. rewrite (existsb_filter_nil _ _ E).
    set (new := mk_artist (Z.max (a_seq t) (max_id (a_rows t)) + 1) name).
    assert (Hn : named name new = true)
      by (unfold named, new; simpl; apply String.eqb_refl).
    assert (Hf : filter (named name) (a_rows t ++ [new]) = [new])
      by (rewrite filter_app, E; simpl; now rewrite Hn).
    cbn [a_rows a_seq]. rewrite Hf. unfold write_result.
    pose proof (max_id_nonneg (a_rows t)).
    destruct (Z.eqb_spec (Z.max (a_seq t) (max_id (a_rows t)) + 1) 0); [lia|].
    split; auto. split; auto. split.
    + exists new. split; [exact Hf|reflexivity].
    + split.
      * cbn [a_rows]. rewrite filter_app. cbn [filter]. rewrite Hn.
        apply app_nil_r.
      * cbn [a_rows]. rewrite length_app. simpl. lia.
  - rewrite E. split; auto. split; auto. split.
    + exists r. auto.
    + split; auto. lia.
  - simpl in Hu. lia.
Qed.

Lemma add_artist_twice_witness :
  (length (filter (named "Nina") (a_rows (mk_artists [mk_artist 1 "Ada"] 3))) <= 1)%nat /\
  (let (t1, r1) := add_artist "Nina" (mk_artists [mk_artist 1 "Ada"] 3) in
   let (t2, r2) := add_artist "Nina" t1 in
   r1 = r2 /\ t2 = t1 /\
   (exists row, filter (named "Nina") (a_rows t2) = [row] /\ r1 = OutInt (a_id row)) /\
   filter (fun r => negb (named "Nina" r)) (a_rows t2) =
     filter (fun r => negb (named "Nina" r)) (a_rows (mk_artists [mk_artist 1 "Ada"] 3)) /\
   (length (a_rows t2) <= length (a_rows (mk_artists [mk_artist 1 "Ada"] 3)) + 1)%nat).
Proof.
  split; [vm_compute; lia|]. apply add_artist_twice. vm_compute. lia.
Defined.

End ArtistClaims.

(** ** Claim about partial updates *)

Module UpdateClaims.
Import UpdateModel.

Lemma track_fold_fields title a al d ly r :
  fold_left set_track_field (track_update_fields title a al d ly) r =
  track_after_update title a al d ly r.
Proof.
  destruct r.
  destruct title as [s|]; [destruct (String.eqb s "") eqn:Ht|];
    destruct a, al, d, ly; unfold track_update_fields, track_after_update, pick_title, truthy_str;
    rewrite ?Ht; simpl; rewrite ?Ht; reflexivity.
Qed.

Lemma track_fields_nil title a al d ly :
  track_update_fields title a al d ly = [] <->
  track_supplied title a al d ly = false.
Proof.
  destruct title as [s|]; [destruct (String.eqb s "") eqn:Ht|];
    destruct a, al, d, ly; unfold track_update_fields, track_supplied, truthy_str;
    rewrite ?Ht; simpl; rewrite ?Ht; split; congruence.
Qed.

Lemma track_after_none title a al d ly r :
  track_supplied title a al d ly = false ->
  track_after_update title a al d ly r = r.
Proof.
  unfold track_supplied, track_after_update.
  intros H. repeat rewrite orb_false_iff in H.
  destruct H as [[[[Ht Ha] Hal] Hd] Hly].
  destruct r; destruct a, al, d, ly; try discriminate; simpl.
  destruct title as [s|]; simpl; [|reflexivity].
  unfold truthy_str in Ht |- *. rewrite Ht. reflexivity.
Qed.

Lemma album_fold_fields title a y r :
  fold_left set_album_field (album_update_fields title a y) r =
  album_after_update title a y r.
Proof.
  destruct r.
  destruct title as [s|]; [destruct (String.eqb s "") eqn:Ht|];
    destruct a, y; unfold album_update_fields, album_after_update, pick_title, truthy_str;
    rewrite ?Ht; simpl; rewrite ?Ht; reflexivity.
Qed.

Lemma album_fields_nil title a y :
  album_update_fields title a y = [] <-> album_supplied title a y = false.
Proof.
  destruct title as [s|]; [destruct (String.eqb s "") eqn:Ht|];
    destruct a, y; unfold album_update_fields, album_supplied, truthy_str;
    rewrite ?Ht; simpl; rewrite ?Ht; split; congruence.
Qed.

Lemma album_after_none title a y r :
  album_supplied title a y = false -> album_after_update title a y r = r.
Proof.
  unfold album_supplied, album_after_update.
  intros H. repeat rewrite orb_false_iff in H.
  destruct H as [[Ht Ha] Hy].
  destruct r; destruct a, y; try discriminate; simpl.
  destruct title as [s|]; simpl; [|reflexivity].
  unfold truthy_str in Ht |- *. rewrite Ht. reflexivity.
Qed.

Lemma map_if_id {A} (c : A -> bool) (f : A -> A) (l : list A) :
  (forall x, f x = x) -> map (fun x => if c x then f x else x) l = l.
Proof.
  intros Hf. induction l as [|x l IH]; simpl; auto.
  rewrite IH, Hf. destruct (c x); reflexivity.
Qed.

Lemma track_update_spec i title a al d ly rows :
  track_update i title a al d ly rows =
  (map (fun r => if Z.eqb (tk_id r) i
                 then track_after_update title a al d ly r else r) rows,
   if track_supplied title a al d ly
   then Z.of_nat (length (filter (fun r => Z.eqb (tk_id r) i) rows))
   else 0).
Proof.
  unfold track_update.
  destruct (track_update_fields title a al d ly) as [|f fs] eqn:E.
  - pose proof (proj1 (track_fields_nil title a al d ly) E) as Hn.
    rewrite Hn, map_if_id; auto. intros. now apply track_after_none.
  - assert (Hs : track_supplied title a al d ly = true).
    { destruct (track_supplied title a al d ly) eqn:Hs; auto.
      apply track_fields_nil in Hs. congruence. }
    rewrite Hs. f_equal. apply map_ext. intros r.
    rewrite <- E, track_fold_fields. reflexivity.
Qed.

Lemma album_update_spec i title a y rows :
  album_update i title a y rows =
  (map (fun r => if Z.eqb (al_id r) i
                 then album_after_update title a y r else r) rows,
   if album_supplied title a y
   then Z.of_nat (length (filter (fun r => Z.eqb (al_id r) i) rows))
   else 0).
Proof.
  unfold album_update.
  destruct (album_update_fields title a y) as [|f fs] eqn:E.
  - pose proof (proj1 (album_fields_nil title a y) E) as Hn.
    rewrite Hn, map_if_id; auto. intros. now apply album_after_none.
  - assert (Hs : album_supplied title a y = true).
    { destruct (album_supplied title a y) eqn:Hs; auto.
      apply album_fields_nil in Hs. congruence. }
    rewrite Hs. f_equal. apply map_ext. intros r.
    rewrite <- E, album_fold_fields. reflexivity.
Qed.

(** C9: [Track.update] and [Album.update] rewrite exactly the row with the
    given id, and in it only the supplied fields (a title counts as
    supplied when it is a non-empty string, any other field when it is not
    [None]); every other field of that row and every other row keep their
    values, and the count returned is the number of rows with that id.
    With no supplied field the update leaves the rows as they are and
    returns 0. *)
Theorem partial_update_frame :
  (forall i title a al d ly rows,
     track_update i title a al d ly rows =
     (map (fun r => if Z.eqb (tk_id r) i
                    then track_after_update title a al d ly r else r) rows,
      if track_supplied title a al d ly
      then Z.of_nat (length (filter (fun r => Z.eqb (tk_id r) i) rows))
      else 0) /\
     (track_supplied title a al d ly = false ->
      track_update i title a al d ly rows = (rows, 0))) /\
  (forall i title a y rows,
     album_update i title a y rows =
     (map (fun r => if Z.eqb (al_id r) i
                    then album_after_update title a y r else r) rows,
      if album_supplied title a y
      then Z.of_nat (length (filter (fun r => Z.eqb (al_id r) i) rows))
      else 0) /\
     (album_supplied title a y = false ->
      album_update i title a y rows = (rows, 0))).
Proof.
  split.
  - intros i title a al d ly rows. split; [apply track_update_spec|].
    intros Hn. rewrite track_update_spec, Hn, map_if_id; auto.
    intros. now apply track_after_none.
  - intros i title a y rows. split; [apply album_update_spec|].
    intros Hn. rewrite album_update_spec, Hn, map_if_id; auto.
    intros. now apply album_after_none.
Qed.

End UpdateClaims.

(** ** Frame facts of the storage model *)

Module StorageFacts.
Import Storage.

Lemma assoc_put_other {A} q p (v : A) l :
  q <> p -> assoc q (assoc_put p v l) = assoc q l.
Proof.
  intros Hne. induction l as [|[k w] l IH]; simpl.
  - destruct (String.eqb_spec q p); [congruence|reflexivity].
  - destruct (String.eqb_spec p k); simpl.
    + subst k. destruct (String.eqb_spec q p); [congruence|reflexivity].
    + destruct (String.eqb q k); auto.
Qed.

Lemma assoc_put_same {A} p (v : A) l : assoc p (assoc_put p v l) = Some v.
Proof.
  induction l as [|[k w] l IH]; simpl.
  - rewrite String.eqb_refl. reflexivity.
  - destruct (String.eqb_spec p k); simpl.
    + rewrite String.eqb_refl. reflexivity.
    + destruct (String.eqb_spec p k); [contradiction|auto].
Qed.

Lemma assoc_del_other {A} q p (l : list (string * A)) :
  q <> p -> assoc q (assoc_del p l) = assoc q l.
Proof.
  intros Hne. unfold assoc_del. induction l as [|[k w] l IH]; simpl; auto.
  destruct (String.eqb_spec p k); simpl.
  - subst k. destruct (String.eqb_spec q p); [congruence|auto].
  - destruct (String.eqb q k); auto.
Qed.

Lemma assoc_del_same {A} p (l : list (string * A)) : assoc p (assoc_del p l) = None.
Proof.
  unfold assoc_del. induction l as [|[k w] l IH]; simpl; auto.
  destruct (String.eqb_spec p k); simpl; auto.
  destruct (String.eqb_spec p k); [contradiction|auto].
Qed.

Lemma get_put_other q p d s : q <> p -> get q (put p d s) = get q s.
Proof. intros. unfold get, put. simpl. now apply assoc_put_other. Qed.

Lemma get_put_same p d s : get p (put p d s) = Some d.
Proof. unfold get, put. simpl. apply assoc_put_same. Qed.

Lemma get_del_other q p s : q <> p -> get q (del p s) = get q s.
Proof. intros. unfold get, del. simpl. now apply assoc_del_other. Qed.

Lemma get_del_same p s : get p (del p s) = None.
Proof. unfold get, del. simpl. apply assoc_del_same. Qed.

Lemma string_length_append a b :
  String.length (String.append a b) = (String.length a + String.length b)%nat.
Proof. induction a; simpl; auto. Qed.

Lemma backup_path_other p ts : backup_path p ts <> p.
Proof.
  unfold backup_path. intros H.
  apply (f_equal String.length) in H.
  rewrite !string_length_append in H. simpl in H. lia.
Qed.

Lemma keeps_ret {A} q (a : A) : keeps q (ret a).
Proof. intros s. reflexivity. Qed.

Lemma keeps_raise {A} q e : keeps q (@raise A e).
Proof. intros s. reflexivity. Qed.

Lemma keeps_tick q : keeps q tick.
Proof. intros s. reflexivity. Qed.

Lemma keeps_read q p : keeps q (read_db p).
Proof. intros s. reflexivity. Qed.

Lemma keeps_exists q p : keeps q (path_exists p).
Proof. intros s. reflexivity. Qed.

Lemma keeps_write q p d : q <> p -> keeps q (write_db p d).
Proof. intros Hne s. simpl. now apply get_put_other. Qed.

Lemma keeps_bind {A B} q (m : io A) (k : A -> io B) :
  keeps q m -> (forall a, keeps q (k a)) -> keeps q (bind m k).
Proof.
  intros Hm Hk s. unfold bind. specialize (Hm s).
  destruct (m s) as [[a|e] s'] eqn:E; simpl in *.
  - rewrite Hk. exact Hm.
  - exact Hm.
Qed.

Lemma keeps_iter {A} q (f : A -> io unit) l :
  (forall x, keeps q (f x)) -> keeps q (iter_io f l).
Proof.
  intros Hf. induction l as [|x l IH]; simpl.
  - apply keeps_ret.
  - apply keeps_bind; auto.
Qed.

Lemma keeps_map_io {A B} q (f : A -> io B) l :
  (forall x, keeps q (f x)) -> keeps q (map_io f l).
Proof.
  intros Hf. induction l as [|x l IH]; simpl.
  - apply keeps_ret.
  - apply keeps_bind; auto. intros. apply keeps_bind; auto.
    intros. apply keeps_ret.
Qed.

Lemma keeps_os_remove q p : q <> p -> keeps q (os_remove p).
Proof.
  intros Hne. unfold os_remove. apply keeps_bind; [apply keeps_tick|].
  intros [|]; [apply keeps_raise|]. intros s. simpl.
  destruct (get p s); simpl; auto. now apply get_del_other.
Qed.

Lemma keeps_copy2 q src p : q <> p -> keeps q (copy2 src p).
Proof.
  intros Hne. unfold copy2. apply keeps_bind; [apply keeps_tick|].
  intros [|]; [apply keeps_raise|]. intros s. simpl.
  destruct (get src s); simpl; auto. now apply get_put_other.
Qed.

Lemma keeps_connect q p : q <> p -> keeps q (connect p).
Proof.
  intros Hne. unfold connect. apply keeps_bind; [apply keeps_tick|].
  intros [|]; [apply keeps_raise|]. intros s. simpl.
  destruct (get p s); simpl; auto. now apply get_put_other.
Qed.

Lemma keeps_execute q p st : q <> p -> keeps q (execute p st).
Proof.
  intros Hne. unfold execute.
  apply keeps_bind; [now apply keeps_connect|]. intros _.
  apply keeps_bind; [apply keeps_read|]. intros [db|]; [|apply keeps_ret].
  destruct (negb (prepare st db)); [apply keeps_ret|].
  destruct (binds_overflow st); [apply keeps_raise|].
  apply keeps_bind; [apply keeps_tick|]. intros [|]; [apply keeps_ret|].
  destruct (run_stmt st db) as [[[db' rows] lid] rc].
  destruct (is_select st); [apply keeps_ret|].
  apply keeps_bind; [now apply keeps_write|]. intros. apply keeps_ret.
Qed.

Lemma keeps_create_tables q p : q <> p -> keeps q (create_tables p).
Proof.
  intros Hne. unfold create_tables. apply keeps_iter.
  intros [t [cols keys]]. apply keeps_bind; [now apply keeps_execute|].
  intros. apply keeps_ret.
Qed.

Lemma keeps_transfer_table q p old t :
  q <> p -> q <> old -> keeps q (transfer_table p old t).
Proof.
  intros Hp Ho. unfold transfer_table.
  apply keeps_bind; [now apply keeps_execute|].
  intros [[|row rows]|[| n | n]]; try apply keeps_ret; try apply keeps_raise.
  apply keeps_bind; [now apply keeps_execute|].
  intros [cols|n]; [|apply keeps_raise].
  apply keeps_bind; [apply keeps_map_io; intros r; unfold get_key;
                     destruct (assoc "name" r); [apply keeps_ret|apply keeps_raise]|].
  intros names. cbn [map].
  apply keeps_iter. intros r. apply keeps_bind; [now apply keeps_execute|].
  intros. apply keeps_ret.
Qed.

Lemma keeps_transfer_data q p old :
  q <> p -> q <> old -> keeps q (transfer_data p old).
Proof.
  intros Hp Ho. unfold transfer_data.
  apply keeps_bind; [now apply keeps_create_tables|]. intros _.
  apply keeps_iter. intros t. now apply keeps_transfer_table.
Qed.

Lemma keeps_verify q p : q <> p -> keeps q (verify_counts p).
Proof.
  intros Hp. unfold verify_counts. apply keeps_iter. intros t.
  apply keeps_bind; [now apply keeps_execute|].
  intros [[|row rows]|n]; try apply keeps_raise.
  apply keeps_bind; [unfold get_key; destruct (assoc "count" row);
                     [apply keeps_ret|apply keeps_raise]|].
  intros. apply keeps_ret.
Qed.

Lemma keeps_delete_database q p : q <> p -> keeps q (delete_database p).
Proof.
  intros Hp. unfold delete_database.
  apply keeps_bind; [apply keeps_exists|].
  intros [|]; [now apply keeps_os_remove|apply keeps_ret].
Qed.

Lemma keeps_create_new_database q p : q <> p -> keeps q (create_new_database p).
Proof.
  intros Hp. unfold create_new_database.
  apply keeps_bind; [now apply keeps_delete_database|].
  intros. now apply keeps_create_tables.
Qed.

Lemma keeps_on_raise_bind {A B} q (m : io A) (k : A -> io B) :
  keeps q m -> (forall a, keeps_on_raise q (k a)) -> keeps_on_raise q (bind m k).
Proof.
  intros Hm Hk s e s'. unfold bind. specialize (Hm s).
  destruct (m s) as [[a|e'] s1] eqn:E; simpl in *.
  - intros H. rewrite (Hk a s1 e s' H). exact Hm.
  - intros H. inversion H; subst. exact Hm.
Qed.

(** [os.remove] changes nothing when it raises. *)
Lemma os_remove_raise_files p s e s' :
  os_remove p s = (Raise e, s') -> files s' = files s.
Proof.
  unfold os_remove, bind, tick, raise. simpl.
  destruct (fails s (clock s)); simpl.
  - intros H. inversion H. reflexivity.
  - unfold get. simpl. destruct (assoc p (files s)); intros H; inversion H.
    reflexivity.
Qed.

Lemma keeps_on_raise_os_remove q p : keeps_on_raise q (os_remove p).
Proof.
  intros s e s' H. unfold get. now rewrite (os_remove_raise_files _ _ _ _ H).
Qed.

(** The [try] body touches no file but the store, until its last step,
    [os.remove(backup_path)]. *)
Lemma migration_steps_keep_backup p bp :
  bp <> p -> keeps_on_raise bp (migration_steps p bp).
Proof.
  intros Hne. unfold migration_steps.
  apply keeps_on_raise_bind; [now apply keeps_create_new_database|]. intros _.
  apply keeps_on_raise_bind; [now apply keeps_transfer_data|]. intros _.
  apply keeps_on_raise_bind; [now apply keeps_verify|]. intros _.
  apply keeps_on_raise_os_remove.
Qed.

(** A successful [backup_database] copies the store to [backup_path]. *)
Lemma backup_database_ok p ts s bp s' :
  backup_database p ts s = (Ok bp, s') ->
  bp = backup_path p ts /\ get bp s' = get p s /\ get p s' = get p s.
Proof.
  unfold backup_database, copy2, bind, tick, raise, ret. simpl.
  destruct (fails s (clock s)); simpl; [intros H; inversion H|].
  change (get p {| files := files s; clock := S (clock s); fails := fails s |})
    with (get p s).
  destruct (get p s) as [d|] eqn:E; simpl; intros H; inversion H; subst.
  split; [reflexivity|]. split.
  - rewrite get_put_same. reflexivity.
  - rewrite get_put_other by (apply not_eq_sym, backup_path_other).
    exact E.
Qed.

Lemma delete_database_present p s d :
  get p s = Some d -> fails s (clock s) = false ->
  delete_database p s = (Ok tt, del p (after_tick s)).
Proof.
  intros Hp F. unfold delete_database, path_exists, os_remove, bind, tick.
  simpl. rewrite Hp, F.
  change (get p {| files := files s; clock := S (clock s); fails := fails s |})
    with (get p s).
  rewrite Hp. reflexivity.
Qed.

Lemma delete_database_absent p s :
  get p s = None -> delete_database p s = (Ok tt, s).
Proof.
  intros Hp. unfold delete_database, path_exists, bind. simpl. now rewrite Hp.
Qed.

Lemma copy2_ok src dst s d :
  get src s = Some d -> fails s (clock s) = false ->
  copy2 src dst s = (Ok tt, put dst d (after_tick s)).
Proof.
  intros Hs F. unfold copy2, bind, tick. simpl. rewrite F.
  change (get src {| files := files s; clock := S (clock s); fails := fails s |})
    with (get src s).
  rewrite Hs. reflexivity.
Qed.

(** The [except] block, when its own I/O steps succeed, puts the backup's
    content back at the store's path and re-raises. *)
Lemma restore_then_raise p bp s e d :
  bp <> p -> get bp s = Some d ->
  fails s (clock s) = false -> fails s (S (clock s)) = false ->
  exists s', (_ <- restore p bp ;; @raise unit e) s = (Raise e, s') /\
             get p s' = Some d.
Proof.
  intros Hne Hb F0 F1. unfold restore, bind.
  destruct (get p s) as [d0|] eqn:Hp.
  - rewrite (delete_database_present p s d0 Hp F0).
    rewrite (copy2_ok bp p (del p (after_tick s)) d).
    + eexists. split; [reflexivity|]. apply get_put_same.
    + rewrite get_del_other by exact Hne. exact Hb.
    + exact F1.
  - rewrite (delete_database_absent p s Hp).
    rewrite (copy2_ok bp p s d Hb F0).
    eexists. split; [reflexivity|]. apply get_put_same.
Qed.

End StorageFacts.

(** ** Claims about the storage gateway *)

Module StorageClaims.
Import Storage StorageSamples StorageFacts.
Local Open Scope string_scope.

(** C2: a migration of a store holding one artist runs to completion
    without any I/O failure, leaves every table of the store empty and
    deletes the backup: [transfer_data] reads the path the migration has
    just recreated, not the backup, and the verification loop only reads
    the counts. *)
Theorem migrate_empties_populated_store :
  get "lib.db" (lib_state no_faults) = Some lib_db /\
  lib_db <> empty_db /\
  (let '(o, s) := migrate_database "lib.db" stamp (lib_state no_faults) in
   o = Ok tt /\ get "lib.db" s = Some empty_db /\
   get (backup_path "lib.db" stamp) s = None).
Proof.
  split; [reflexivity|]. split.
  - unfold lib_db, empty_db. simpl. intros H. inversion H.
  - vm_compute. split; [reflexivity|]. split; reflexivity.
Qed.

(** Reading from the backup would not help: with a non-empty old table,
    [table_info] returns the int -1 ([PRAGMA] does not start with SELECT)
    and iterating over it raises [TypeError]. *)
Lemma transfer_from_backup_raises :
  fst (transfer_data "lib.db" (backup_path "lib.db" stamp)
         (mk_fs [("lib.db", empty_db); (backup_path "lib.db" stamp, lib_db)]
            0 no_faults)) = Raise TypeError.
Proof. vm_compute. reflexivity. Qed.

(** C3: when the backup was taken and the body of the [try] block raises
    [e], [migrate_database] raises [e] and the store at the original path
    holds again exactly the pre-migration database, provided the
    [except] block's own I/O ([os.remove] of the partial store and
    [shutil.copy2] of the backup) does not fail. *)
Theorem migrate_restores_on_failure p ts s0 d0 bp s1 e s2 :
  get p s0 = Some d0 ->
  backup_database p ts s0 = (Ok bp, s1) ->
  migration_steps p bp s1 = (Raise e, s2) ->
  fails s2 (clock s2) = false -> fails s2 (S (clock s2)) = false ->
  exists s3, migrate_database p ts s0 = (Raise e, s3) /\ get p s3 = Some d0.
Proof.
  intros H0 Hb Hm F0 F1.
  destruct (backup_database_ok p ts s0 bp s1 Hb) as [Ebp [Hbp _]].
  assert (Hne : bp <> p) by (subst bp; apply backup_path_other).
  assert (Hkeep : get bp s2 = Some d0).
  { rewrite (migration_steps_keep_backup p bp Hne s1 e s2 Hm), Hbp. exact H0. }
  unfold migrate_database, bind at 1. rewrite Hb.
  unfold try_. rewrite Hm.
  exact (restore_then_raise p bp s2 e d0 Hne Hkeep F0 F1).
Qed.

Lemma migrate_restores_on_failure_witness :
  get "lib.db" (lib_state (fault_at 2)) = Some lib_db /\
  backup_database "lib.db" stamp (lib_state (fault_at 2)) =
    (Ok (backup_path "lib.db" stamp),
     snd (backup_database "lib.db" stamp (lib_state (fault_at 2)))) /\
  migration_steps "lib.db" (backup_path "lib.db" stamp)
    (snd (backup_database "lib.db" stamp (lib_state (fault_at 2)))) =
    (Raise OperationalError,
     snd (migration_steps "lib.db" (backup_path "lib.db" stamp)
            (snd (backup_database "lib.db" stamp (lib_state (fault_at 2)))))) /\
  exists s3,
    migrate_database "lib.db" stamp (lib_state (fault_at 2)) =
      (Raise OperationalError, s3) /\ get "lib.db" s3 = Some lib_db.
Proof.
  split; [reflexivity|]. split; [reflexivity|]. split; [reflexivity|].
  apply (migrate_restores_on_failure "lib.db" stamp (lib_state (fault_at 2))
           lib_db (backup_path "lib.db" stamp)
           (snd (backup_database "lib.db" stamp (lib_state (fault_at 2))))
           OperationalError
           (snd (migration_steps "lib.db" (backup_path "lib.db" stamp)
                   (snd (backup_database "lib.db" stamp (lib_state (fault_at 2)))))));
    vm_compute; reflexivity.
Defined.

(** C4, as stated, fails: binding an int outside SQLite's 64-bit range
    raises [OverflowError], which is not a [sqlite3.Error] and escapes
    [execute]. *)
Lemma execute_overflow_escapes :
  fst (execute "lib.db"
         (SInsertOrIgnore "artists" ["id"; "name"] [VInt (2 ^ 63); VText "Bo"])
         (lib_state no_faults)) = Raise OverflowError.
Proof. vm_compute. reflexivity. Qed.

Lemma connect_present p s d :
  get p s = Some d -> fails s (clock s) = false ->
  connect p s = (Ok tt, after_tick s).
Proof.
  intros Hp F. unfold connect, bind, tick. simpl. rewrite F.
  change (get p {| files := files s; clock := S (clock s); fails := fails s |})
    with (get p s).
  rewrite Hp. reflexivity.
Qed.

(** C4, corrected: on an existing store, a [sqlite3.Error] raised by the
    statement (a failed prepare: missing table, bad column list, wrong
    number of parameters; or a failure while running or committing it)
    makes [execute] return the empty list with the store unchanged; an
    [OverflowError] from binding an out-of-range int, and a failure of
    [sqlite3.connect] (outside the [try]), escape to the caller, also with
    the store unchanged. *)
Theorem execute_failure_paths p q s d :
  get p s = Some d ->
  (fails s (clock s) = false ->
   (prepare q d = false \/
    (prepare q d = true /\ binds_overflow q = false /\
     fails s (S (clock s)) = true)) ->
   fst (execute p q s) = Ok (OutRows []) /\
   files (snd (execute p q s)) = files s) /\
  (fails s (clock s) = false -> prepare q d = true -> binds_overflow q = true ->
   fst (execute p q s) = Raise OverflowError /\
   files (snd (execute p q s)) = files s) /\
  (fails s (clock s) = true ->
   fst (execute p q s) = Raise OperationalError /\
   files (snd (execute p q s)) = files s).
Proof.
  intros Hp. split; [|split].
  - intros F0 Hf.
    assert (Hx : exists s', execute p q s = (Ok (OutRows []), s') /\
                            files s' = files s).
    { unfold execute, bind at 1.
      rewrite (connect_present p s d Hp F0).
      unfold bind at 1, read_db.
      change (get p (after_tick s)) with (get p s). rewrite Hp.
      destruct Hf as [Hprep | [Hprep [Hov F1]]].
      - rewrite Hprep. simpl. eexists. split; reflexivity.
      - rewrite Hprep, Hov. simpl. unfold bind, tick. simpl. rewrite F1.
        simpl. eexists. split; reflexivity. }
    destruct Hx as [s' [Hx Hf']]. rewrite Hx. auto.
  - intros F0 Hprep Hov.
    assert (Hx : execute p q s = (Raise OverflowError, after_tick s)).
    { unfold execute, bind at 1.
      rewrite (connect_present p s d Hp F0).
      unfold bind at 1, read_db.
      change (get p (after_tick s)) with (get p s). rewrite Hp.
      rewrite Hprep, Hov. reflexivity. }
    rewrite Hx. auto.
  - intros F0.
    assert (Hx : execute p q s = (Raise OperationalError, after_tick s)).
    { unfold execute, connect, bind, tick. simpl. rewrite F0. reflexivity. }
    rewrite Hx. auto.
Qed.

Lemma execute_failure_paths_witness :
  get "lib.db" (lib_state no_faults) = Some lib_db /\
  fst (execute "lib.db" (SCount "nope") (lib_state no_faults)) = Ok (OutRows []) /\
  files (snd (execute "lib.db" (SCount "nope") (lib_state no_faults))) =
    files (lib_state no_faults).
Proof.
  split; [reflexivity|].
  apply (proj1 (execute_failure_paths "lib.db" (SCount "nope")
                  (lib_state no_faults) lib_db eq_refl)); [reflexivity|].
  left. reflexivity.
Defined.

End StorageClaims.

(* ================================================================== *)
(** * Further properties of the code *)

(** ** Helper facts for the library operations *)

Module LibraryFacts.
Import PlaylistModel ListFacts PlaylistFacts PlaylistInvariant PlaylistListing.
Import ArtistModel UpdateModel LibraryModel.
Local Open Scope string_scope.
Local Open Scope list_scope.
Local Open Scope Z_scope.


Lemma filter_all_false {A} (f : A -> bool) (l : list A) :
  (forall x, In x l -> f x = false) -> filter f l = [].
Proof.
  induction l as [|a l IH]; simpl; auto. intros H.
  rewrite H by auto. auto.
Qed.

Lemma filter_all_true {A} (f : A -> bool) (l : list A) :
  (forall x, In x l -> f x = true) -> filter f l = l.
Proof.
  induction l as [|a l IH]; simpl; auto. intros H.
  rewrite H by auto. f_equal. auto.
Qed.


Lemma write_result_pos id n : id <> 0 -> write_result id n = id.
Proof. intros H. unfold write_result. destruct (Z.eqb_spec id 0); lia. Qed.


(** *** The ordering engine *)

Lemma change_track_position_table p k np t c rest :
  select_position p k t = c :: rest -> c <> np ->
  fst (change_track_position p k np t) =
  map (place p k np) (map (shift_range p c np) t).
Proof.
  intros Hs Hne. unfold change_track_position. rewrite Hs.
  destruct (Z.eqb_spec c np); [contradiction|].
  unfold shift_range. destruct (Z.ltb c np); reflexivity.
Qed.

Lemma place_pid p k np r : playlist_id (place p k np r) = playlist_id r.
Proof. apply update_row_pid. Qed.

Lemma place_tid p k np r : track_id (place p k np r) = track_id r.
Proof. apply update_row_tid. Qed.

Lemma shift_range_pid p c np r : playlist_id (shift_range p c np r) = playlist_id r.
Proof. unfold shift_range. destruct (Z.ltb c np); apply update_row_pid. Qed.

Lemma shift_range_tid p c np r : track_id (shift_range p c np r) = track_id r.
Proof. unfold shift_range. destruct (Z.ltb c np); apply update_row_tid. Qed.

(** Case split on the integer comparisons of a goal, one at a time,
    dropping the branches whose facts contradict each other. *)
Ltac no_if t :=
  lazymatch t with
  | context [if _ then _ else _] => fail
  | _ => idtac
  end.

Ltac zsplit :=
  repeat match goal with
  | |- context [Z.eqb ?a ?b] => no_if a; no_if b;
      destruct (Z.eqb_spec a b); simpl; try (exfalso; lia)
  | |- context [Z.ltb ?a ?b] => no_if a; no_if b;
      destruct (Z.ltb_spec a b); simpl; try (exfalso; lia)
  | |- context [Z.leb ?a ?b] => no_if a; no_if b;
      destruct (Z.leb_spec a b); simpl; try (exfalso; lia)
  end.

(** A move followed by the move back, on one row. *)
Lemma move_back_row p k c np x :
  c <> np ->
  (playlist_id x = p -> track_id x = k -> position x = c) ->
  (playlist_id x = p -> track_id x <> k -> position x <> c) ->
  place p k c (shift_range p np c (place p k np (shift_range p c np x))) = x.
Proof.
  intros Hne Hk Hnk. destruct x as [rid pid tid pos]; simpl in *.
  unfold place, shift_range, update_row, set_position; simpl.
  destruct (Z.eqb_spec pid p) as [Hp|Hp];
    [destruct (Z.eqb_spec tid k) as [Hq|Hq]|].
  - specialize (Hk Hp Hq). subst. simpl. zsplit; reflexivity.
  - specialize (Hnk Hp Hq). simpl. zsplit; try reflexivity; f_equal; lia.
  - simpl. zsplit; reflexivity.
Qed.

(** [change_track_position] only rewrites positions. *)
Lemma change_track_position_map p k np t :
  exists g, fst (change_track_position p k np t) = map g t /\
            (forall r, playlist_id (g r) = playlist_id r /\
                       track_id (g r) = track_id r).
Proof.
  unfold change_track_position.
  destruct (select_position p k t) as [|c rest].
  { exists (fun r => r). split; [symmetry; apply map_id|auto]. }
  destruct (Z.eqb c np).
  { exists (fun r => r). split; [symmetry; apply map_id|auto]. }
  destruct (Z.ltb c np); simpl; eexists; (split; [rewrite map_map; reflexivity|]);
    intros r; cbv beta; rewrite !update_row_pid, !update_row_tid; auto.
Qed.

Lemma members_tids_move q p k np t :
  map track_id (members q (fst (change_track_position p k np t))) =
  map track_id (members q t).
Proof.
  destruct (change_track_position_map p k np t) as [g [-> Hg]].
  rewrite members_map by (intros r; apply Hg).
  rewrite map_map. apply map_ext. intros r. apply Hg.
Qed.

Lemma join_track_durations artists tracks m1 m2 :
  track_id m1 = track_id m2 ->
  map o_duration (join_track artists tracks m1) =
  map o_duration (join_track artists tracks m2).
Proof.
  intros Hm. unfold join_track. rewrite Hm.
  induction tracks as [|tr trs IH]; simpl; auto.
  rewrite !map_app. f_equal; auto.
  destruct (Z.eqb (tr_id tr) (track_id m2)); auto.
  unfold left_join_artist.
  destruct (filter (fun a => same_id (tr_artist_id tr) (ar_id a)) artists);
    simpl; auto. rewrite !map_map. reflexivity.
Qed.

Lemma join_durations artists tracks (l1 l2 : table) :
  map track_id l1 = map track_id l2 ->
  map o_duration (flat_map (join_track artists tracks) l1) =
  map o_duration (flat_map (join_track artists tracks) l2).
Proof.
  revert l2. induction l1 as [|m1 l1 IH]; intros [|m2 l2]; simpl;
    try discriminate; auto.
  intros H. injection H as H1 H2. rewrite !map_app.
  f_equal; auto. apply join_track_durations. auto.
Qed.

Lemma insert_perm x (l : list track_out) :
  Permutation (insert_by_position x l) (x :: l).
Proof.
  induction l as [|y l IH]; simpl; auto.
  destruct (Z.leb (o_position x) (o_position y)); auto.
  apply perm_trans with (y :: x :: l); [auto|apply perm_swap].
Qed.

Lemma sort_perm (l : list track_out) : Permutation (sort_by_position l) l.
Proof.
  induction l as [|x l IH]; simpl; auto.
  eapply perm_trans; [apply insert_perm|]. auto.
Qed.

Lemma total_duration_acc (l : list track_out) acc :
  fold_left (fun acc o => match o_duration o with
                          | Some d => if Z.eqb d 0 then acc else acc + d
                          | None => acc
                          end) l acc =
  acc + fold_right (fun d s => match d with Some d => d | None => 0 end + s)
                   0 (map o_duration l).
Proof.
  revert acc. induction l as [|o l IH]; intros acc; simpl; [lia|].
  rewrite IH. destruct (o_duration o) as [d|]; [|lia].
  destruct (Z.eqb_spec d 0); lia.
Qed.

Lemma total_duration_perm (l1 l2 : list track_out) :
  Permutation (map o_duration l1) (map o_duration l2) ->
  total_duration l1 = total_duration l2.
Proof.
  unfold total_duration. rewrite !total_duration_acc.
  intros H. f_equal. induction H; simpl; auto; try lia.
Qed.

(** *** Deleting a track *)

Definition pos_le (a b : track_out) : Prop := o_position a <= o_position b.

Lemma insert_sorted x (l : list track_out) :
  StronglySorted pos_le l -> StronglySorted pos_le (insert_by_position x l).
Proof.
  induction l as [|y l IH]; intros Hs; simpl.
  - repeat constructor.
  - inversion Hs as [|? ? Hs' Hf]; subst.
    destruct (Z.leb_spec (o_position x) (o_position y)).
    + constructor; [exact Hs|]. constructor; [exact H|].
      eapply Forall_impl; [|exact Hf]. unfold pos_le. intros a Ha. lia.
    + constructor; [auto|].
      apply Forall_forall. intros z Hz.
      apply (Permutation_in _ (insert_perm x l)) in Hz as [<-|Hz].
      * unfold pos_le. lia.
      * rewrite Forall_forall in Hf. auto.
Qed.

Lemma sort_sorted (l : list track_out) :
  StronglySorted pos_le (sort_by_position l).
Proof.
  induction l; simpl; [constructor|]. now apply insert_sorted.
Qed.

Lemma insert_head x (m : list track_out) :
  Forall (pos_le x) m -> insert_by_position x m = x :: m.
Proof.
  destruct m as [|y m]; simpl; auto. intros Hf. inversion Hf; subst.
  unfold pos_le in *. destruct (Z.leb_spec (o_position x) (o_position y)); auto.
  lia.
Qed.

Lemma filter_insert f x (m : list track_out) :
  StronglySorted pos_le m ->
  filter f (insert_by_position x m) =
  if f x then insert_by_position x (filter f m) else filter f m.
Proof.
  induction m as [|y m IH]; intros Hs; simpl.
  - destruct (f x); reflexivity.
  - inversion Hs as [|? ? Hs' Hf]; subst.
    destruct (Z.leb_spec (o_position x) (o_position y)) as [Hle|Hlt].
    + simpl. destruct (f x) eqn:Ex; [|reflexivity].
      symmetry. apply insert_head. apply Forall_forall. intros z Hz.
      assert (Hz' : z = y \/ In z m).
      { destruct (f y); [destruct Hz as [<-|Hz]; [left; reflexivity|]|];
          right; apply filter_In in Hz; tauto. }
      clear Hz. destruct Hz' as [<-|Hz].
      * exact Hle.
      * rewrite Forall_forall in Hf. unfold pos_le in *.
        specialize (Hf z Hz). lia.
    + simpl. rewrite (IH Hs').
      destruct (f y) eqn:Ey, (f x) eqn:Ex; simpl; auto.
      destruct (Z.leb_spec (o_position x) (o_position y)); [lia|reflexivity].
Qed.

Lemma sort_filter f (l : list track_out) :
  sort_by_position (filter f l) = filter f (sort_by_position l).
Proof.
  induction l as [|x l IH]; simpl; auto.
  rewrite filter_insert by apply sort_sorted.
  destruct (f x); simpl; rewrite IH; reflexivity.
Qed.

Lemma left_join_ids artists pt tr o :
  In o (left_join_artist artists pt tr) -> o_id o = tr_id tr.
Proof.
  unfold left_join_artist.
  destruct (filter (fun a => same_id (tr_artist_id tr) (ar_id a)) artists) as [|a l].
  - intros [<-|[]]. reflexivity.
  - intros H. apply in_map_iff in H as [a0 [<- _]]. reflexivity.
Qed.

Lemma join_track_drop artists tracks k pt :
  join_track artists (filter (fun tr => negb (Z.eqb (tr_id tr) k)) tracks) pt =
  filter (fun o => negb (Z.eqb (o_id o) k)) (join_track artists tracks pt).
Proof.
  unfold join_track. induction tracks as [|tr trs IH]; simpl; auto.
  rewrite filter_app.
  destruct (Z.eqb_spec (tr_id tr) k) as [Hk|Hk]; simpl.
  - rewrite IH.
    assert (Hnil : filter (fun o => negb (Z.eqb (o_id o) k))
                     (if Z.eqb (tr_id tr) (track_id pt)
                      then left_join_artist artists pt tr else []) = []).
    { destruct (Z.eqb (tr_id tr) (track_id pt)); [|reflexivity].
      apply filter_all_false. intros o Ho.
      rewrite (left_join_ids _ _ _ _ Ho), Hk, Z.eqb_refl. reflexivity. }
    rewrite Hnil. reflexivity.
  - rewrite IH. f_equal.
    destruct (Z.eqb (tr_id tr) (track_id pt)); simpl; auto.
    symmetry. apply filter_all_true.
    intros o Ho. rewrite (left_join_ids _ _ _ _ Ho).
    destruct (Z.eqb_spec (tr_id tr) k); [contradiction|reflexivity].
Qed.

Lemma filter_flat_map {A B} (h : B -> bool) (J : A -> list B) (l : list A) :
  flat_map (fun m => filter h (J m)) l = filter h (flat_map J l).
Proof.
  induction l as [|m l IH]; simpl; auto. rewrite filter_app, IH. reflexivity.
Qed.

Lemma path_in_remove x c m :
  path_in x m = false -> path_in x (remove_path c m) = false.
Proof.
  unfold path_in, remove_path. intros H.
  apply Bool.not_true_iff_false. intros H'.
  apply existsb_exists in H' as [y [Hy Hxy]].
  apply filter_In in Hy as [Hy _].
  apply Bool.not_true_iff_false in H. apply H.
  apply existsb_exists. eauto.
Qed.

Lemma path_in_removed x m : path_in x (remove_path x m) = false.
Proof.
  unfold path_in, remove_path.
  apply Bool.not_true_iff_false. intros H'.
  apply existsb_exists in H' as [y [Hy Hxy]].
  apply filter_In in Hy as [_ Hy].
  apply String.eqb_eq in Hxy. subst. rewrite String.eqb_refl in Hy.
  discriminate.
Qed.

(** *** Artist and album tables *)

Lemma max_id_bound (rows : list artist_row) :
  0 <= max_id rows /\ forall r, In r rows -> a_id r <= max_id rows.
Proof.
  induction rows as [|a rows [IH1 IH2]]; simpl; [split; [lia|tauto]|].
  split; [lia|]. intros r [<-|Hr]; [lia|]. specialize (IH2 r Hr). lia.
Qed.

Lemma max_id_app (rows : list artist_row) x :
  max_id (rows ++ [x]) = Z.max (max_id rows) (Z.max (a_id x) 0).
Proof.
  induction rows as [|a rows IH]; simpl; [lia|]. rewrite IH. lia.
Qed.

Lemma album_max_id_bound (rows : list album_row) :
  0 <= album_max_id rows /\ forall r, In r rows -> al_id r <= album_max_id rows.
Proof.
  induction rows as [|a rows [IH1 IH2]]; simpl; [split; [lia|tauto]|].
  split; [lia|]. intros r [<-|Hr]; [lia|]. specialize (IH2 r Hr). lia.
Qed.

Lemma album_max_id_app (rows : list album_row) x :
  album_max_id (rows ++ [x]) = Z.max (album_max_id rows) (Z.max (al_id x) 0).
Proof.
  induction rows as [|a rows IH]; simpl; [lia|]. rewrite IH. lia.
Qed.

Lemma get_by_title_null title t : get_by_title_and_artist title None t = None.
Proof.
  unfold get_by_title_and_artist. rewrite filter_all_false; [reflexivity|].
  intros r _. destruct (al_artist_id r); apply andb_false_r.
Qed.

Lemma album_insert_shape title a y t :
  exists id, album_insert title a y t =
             (mk_albums (al_rows t ++ [mk_album id title a y]) id, OutInt id) /\
             al_seq t < id /\ album_max_id (al_rows t) < id.
Proof.
  unfold album_insert.
  destruct (album_max_id_bound (al_rows t)) as [H0 _].
  exists (Z.max (al_seq t) (album_max_id (al_rows t)) + 1).
  rewrite write_result_pos by lia. split; [reflexivity|lia].
Qed.

End LibraryFacts.

(** ** Properties of the library operations *)

Module LibraryExtras.
Import PlaylistModel ListFacts PlaylistFacts PlaylistInvariant PlaylistListing.
Import ArtistModel UpdateModel LibraryModel LibraryFacts.
Local Open Scope string_scope.
Local Open Scope list_scope.
Local Open Scope Z_scope.

(** Frame of the ordering engine: a sequence of [add_track],
    [remove_track] and [change_track_position] calls none of which names
    playlist [q] leaves the rows of [q] exactly as they were. *)
Theorem run_ops_other_playlist ops q t :
  (forall o, In o ops -> op_playlist o <> q) ->
  members q (run_ops ops t) = members q t.
Proof.
  unfold run_ops. revert t. induction ops as [|o ops IH]; intros t Hops; simpl; auto.
  rewrite IH by (intros o' Ho'; apply Hops; right; exact Ho').
  assert (Hq : q <> op_playlist o)
    by (intros E; apply (Hops o); [left; reflexivity|symmetry; exact E]).
  destruct o as [p k|p k|p k np]; simpl in *.
  - apply add_track_other. exact Hq.
  - apply remove_track_other. exact Hq.
  - apply change_track_position_other. exact Hq.
Qed.

Lemma run_ops_other_playlist_witness :
  members 2 (run_ops [OpAdd 1 5; OpMove 1 5 1; OpRemove 1 5] [mk_pt 1 2 7 1]) =
  members 2 [mk_pt 1 2 7 1].
Proof.
  apply (run_ops_other_playlist [OpAdd 1 5; OpMove 1 5 1; OpRemove 1 5] 2
           [mk_pt 1 2 7 1]).
  simpl. intros o [<-|[<-|[<-|[]]]]; simpl; lia.
Defined.



(** Round trip: moving a track to a new position and then back to its old
    position gives back the table, when the playlist's track ids and its
    positions are duplicate-free. *)
Theorem move_then_move_back p k np t r :
  NoDup (map track_id (members p t)) -> NoDup (map position (members p t)) ->
  In r (members p t) -> track_id r = k ->
  fst (change_track_position p k (position r)
         (fst (change_track_position p k np t))) = t.
Proof.
  intros Hnd Hnp Hr Hk.
  destruct (Z.eq_dec (position r) np) as [Heq|Hne].
  { subst np. rewrite !(change_track_position_same p k t r) by auto. reflexivity. }
  assert (Hs : select_position p k t = [position r])
    by (apply select_position_single; auto).
  rewrite (change_track_position_table p k np t (position r) [] Hs Hne).
  set (g := fun x => place p k np (shift_range p (position r) np x)).
  assert (Hmem : members p (map (place p k np) (map (shift_range p (position r) np) t))
                 = map g (members p t)).
  { rewrite !members_map; [rewrite map_map; reflexivity| |];
      intros x; [apply shift_range_pid|apply place_pid]. }
  assert (Hgr : position (g r) = np).
  { subst g. unfold place. rewrite position_update_row.
    rewrite shift_range_pid, shift_range_tid, (members_pid p t r Hr), Hk,
      !Z.eqb_refl. reflexivity. }
  assert (Hs2 : select_position p k
                  (map (place p k np) (map (shift_range p (position r) np) t))
                = [np]).
  { replace [np] with [position (g r)] by (rewrite Hgr; reflexivity).
    apply select_position_single.
    - rewrite Hmem, map_map. erewrite map_ext; [exact Hnd|].
      intros x. subst g. simpl. rewrite place_tid. apply shift_range_tid.
    - rewrite Hmem. apply in_map. exact Hr.
    - subst g. simpl. rewrite place_tid, shift_range_tid. exact Hk. }
  rewrite (change_track_position_table p k (position r) _ np [] Hs2)
    by (intros E; apply Hne; symmetry; exact E).
  rewrite !map_map. rewrite <- (map_id t) at 2. apply map_ext_in.
  intros x Hx. apply move_back_row; [exact Hne| |].
  - intros Hp Hxk.
    assert (Hxm : In x (members p t))
      by (apply filter_In; split; [exact Hx|apply Z.eqb_eq; exact Hp]).
    rewrite (NoDup_map_inj_on track_id (members p t) x r Hnd Hxm Hr)
      by congruence. reflexivity.
  - intros Hp Hxk E.
    assert (Hxm : In x (members p t))
      by (apply filter_In; split; [exact Hx|apply Z.eqb_eq; exact Hp]).
    apply Hxk. rewrite (same_position_same_row _ x r Hnp Hxm Hr E). exact Hk.
Qed.

Lemma move_then_move_back_witness :
  fst (change_track_position 1 5 1
         (fst (change_track_position 1 5 3
                 [mk_pt 1 1 5 1; mk_pt 2 1 6 2; mk_pt 3 1 7 3]))) =
  [mk_pt 1 1 5 1; mk_pt 2 1 6 2; mk_pt 3 1 7 3].
Proof.
  apply (move_then_move_back 1 5 3
           [mk_pt 1 1 5 1; mk_pt 2 1 6 2; mk_pt 3 1 7 3] (mk_pt 1 1 5 1)).
  - simpl. repeat constructor; simpl; lia.
  - simpl. repeat constructor; simpl; lia.
  - simpl. left. reflexivity.
  - reflexivity.
Defined.

(** [Playlist.get_info] does not see moves: after any
    [change_track_position] call, in any playlist, the info of every
    playlist (name, track count, formatted total duration) is unchanged. *)
Theorem playlist_get_info_move q p k np pls artists tracks t :
  playlist_get_info q pls artists tracks (fst (change_track_position p k np t)) =
  playlist_get_info q pls artists tracks t.
Proof.
  unfold playlist_get_info. destruct (playlist_get q pls) as [pl|]; auto.
  assert (Hd : Permutation
                 (map o_duration (get_tracks q artists tracks
                                    (fst (change_track_position p k np t))))
                 (map o_duration (get_tracks q artists tracks t))).
  { unfold get_tracks.
    eapply perm_trans; [apply Permutation_map, sort_perm|].
    rewrite (join_durations artists tracks _ (members q t))
      by apply members_tids_move.
    apply Permutation_map. apply Permutation_sym, sort_perm. }
  rewrite (total_duration_perm _ _ Hd).
  apply Permutation_length in Hd. rewrite !length_map in Hd. rewrite Hd.
  reflexivity.
Qed.

(** [Track.delete] and the playlists: the rows of [playlist_tracks] stay,
    but [Playlist.get_tracks] of every playlist loses exactly the entries
    of the deleted track, in the same order. The track's audio file is gone
    from the media files, and the statement reports one row per row with
    that id. *)
Theorem track_delete_effects k artists albums media rows p arefs t :
  let '(media', rows', n) := track_delete k artists albums media rows in
  get_tracks p arefs (map to_ref rows') t =
  filter (fun o => negb (Z.eqb (o_id o) k)) (get_tracks p arefs (map to_ref rows) t)
  /\ (forall r an al, track_join k artists albums rows = Some (r, an, al) ->
                      path_in (tk_file_path r) media' = false)
  /\ n = Z.of_nat (length (filter (fun r => Z.eqb (tk_id r) k) rows)).
Proof.
  unfold track_delete. split; [|split].
  - unfold get_tracks.
    replace (map to_ref (filter (fun r => negb (Z.eqb (tk_id r) k)) rows))
      with (filter (fun tr => negb (Z.eqb (tr_id tr) k)) (map to_ref rows))
      by (rewrite filter_map_swap; reflexivity).
    rewrite <- sort_filter, <- filter_flat_map. f_equal.
    apply flat_map_ext. intros m. apply join_track_drop.
  - intros r an al Hj. rewrite Hj.
    assert (Hm1 : path_in (tk_file_path r)
                    (if path_in (tk_file_path r) media
                     then remove_path (tk_file_path r) media else media) = false).
    { destruct (path_in (tk_file_path r) media) eqn:E; auto.
      apply path_in_removed. }
    destruct (tk_cover_path r) as [c|]; auto.
    destruct (negb (String.eqb c "") && _); auto.
    apply path_in_remove. exact Hm1.
  - reflexivity.
Qed.





End LibraryExtras.

(** ** Helper facts for the artist and album tables *)

Module TableFacts.
Import ListFacts ArtistModel UpdateModel LibraryModel LibraryFacts.
Local Open Scope string_scope.
Local Open Scope list_scope.
Local Open Scope Z_scope.

Lemma not_named_absent name (rows : list artist_row) :
  existsb (named name) rows = false -> ~ In name (map a_name rows).
Proof.
  intros H Hin. apply in_map_iff in Hin as [r [Hr Hin]].
  apply Bool.not_true_iff_false in H. apply H.
  apply existsb_exists. exists r. split; [exact Hin|].
  unfold named. apply String.eqb_eq. exact Hr.
Qed.

Lemma add_keys name t :
  NoDup (map a_name (a_rows t)) -> NoDup (map a_id (a_rows t)) ->
  NoDup (map a_name (a_rows (fst (add name t)))) /\
  NoDup (map a_id (a_rows (fst (add name t)))).
Proof.
  intros Hn Hi. unfold add.
  destruct (existsb (named name) (a_rows t)) eqn:E; simpl; [auto|].
  rewrite !map_app. simpl. split.
  - apply NoDup_snoc; [exact Hn|]. apply not_named_absent. exact E.
  - apply NoDup_snoc; [exact Hi|]. intros Hin.
    apply in_map_iff in Hin as [r [Hr Hin]].
    destruct (max_id_bound (a_rows t)) as [_ Hb]. specialize (Hb r Hin). lia.
Qed.

Lemma rename_keys id name (rows : list artist_row) :
  NoDup (map a_name rows) -> NoDup (map a_id rows) ->
  existsb (fun r => negb (Z.eqb (a_id r) id) && named name r) rows = false ->
  NoDup (map a_name (map (fun r => if Z.eqb (a_id r) id
                                   then mk_artist (a_id r) name else r) rows)).
Proof.
  induction rows as [|x xs IH]; simpl; intros Hn Hi He; [constructor|].
  inversion Hn as [|? ? Hnx Hn']; subst. inversion Hi as [|? ? Hix Hi']; subst.
  apply Bool.orb_false_iff in He as [Hx He].
  constructor; [|apply IH; auto].
  rewrite map_map. intros Hin. apply in_map_iff in Hin as [y [Hy Hin]].
  assert (Hyx : negb (Z.eqb (a_id y) id) && named name y = false).
  { apply Bool.not_true_iff_false. intros Hy'.
    apply Bool.not_true_iff_false in He. apply He.
    apply existsb_exists. eauto. }
  destruct (Z.eqb_spec (a_id x) id) as [Ex|Ex];
    destruct (Z.eqb_spec (a_id y) id) as [Ey|Ey]; simpl in *.
  - apply Hix. rewrite Ex, <- Ey. apply in_map. exact Hin.
  - unfold named in Hyx. apply String.eqb_neq in Hyx. congruence.
  - unfold named in Hx. apply String.eqb_neq in Hx. congruence.
  - apply Hnx. rewrite <- Hy. apply in_map. exact Hin.
Qed.

Lemma artist_update_keys id name t :
  NoDup (map a_name (a_rows t)) -> NoDup (map a_id (a_rows t)) ->
  NoDup (map a_name (a_rows (fst (artist_update id name t)))) /\
  NoDup (map a_id (a_rows (fst (artist_update id name t)))).
Proof.
  intros Hn Hi. unfold artist_update.
  destruct (existsb (fun r => Z.eqb (a_id r) id) (a_rows t)) eqn:Eh;
    destruct (existsb (fun r => negb (Z.eqb (a_id r) id) && named name r)
                (a_rows t)) eqn:Eo; simpl; auto.
  - split; [apply rename_keys; auto|].
    rewrite map_map. erewrite map_ext; [exact Hi|].
    intros r. destruct (Z.eqb (a_id r) id); reflexivity.
  - rewrite (map_ext_in _ (fun r => r)).
    + rewrite map_id. auto.
    + intros r Hr. destruct (Z.eqb_spec (a_id r) id) as [E|E]; [|reflexivity].
      apply Bool.not_true_iff_false in Eh. exfalso. apply Eh.
      apply existsb_exists. exists r. split; [exact Hr|apply Z.eqb_eq; exact E].
  - rewrite (map_ext_in _ (fun r => r)).
    + rewrite map_id. auto.
    + intros r Hr. destruct (Z.eqb_spec (a_id r) id) as [E|E]; [|reflexivity].
      apply Bool.not_true_iff_false in Eh. exfalso. apply Eh.
      apply existsb_exists. exists r. split; [exact Hr|apply Z.eqb_eq; exact E].
Qed.

Lemma artist_delete_keys id t :
  NoDup (map a_name (a_rows t)) -> NoDup (map a_id (a_rows t)) ->
  NoDup (map a_name (a_rows (fst (artist_delete id t)))) /\
  NoDup (map a_id (a_rows (fst (artist_delete id t)))).
Proof.
  intros Hn Hi. simpl. split; apply NoDup_map_filter; assumption.
Qed.

Lemma get_by_title_snoc title a id y s t :
  get_by_title_and_artist title (Some a) t = None ->
  get_by_title_and_artist title (Some a)
    (mk_albums (al_rows t ++ [mk_album id title (Some a) y]) s) =
  Some (mk_album id title (Some a) y).
Proof.
  unfold get_by_title_and_artist. simpl. rewrite filter_app.
  destruct (filter _ (al_rows t)); [|discriminate]. intros _.
  simpl. rewrite String.eqb_refl, Z.eqb_refl. reflexivity.
Qed.

End TableFacts.

(** ** Properties of the artist and album tables *)

Module TableExtras.
Import ListFacts ArtistModel UpdateModel LibraryModel LibraryFacts TableFacts.
Local Open Scope string_scope.
Local Open Scope list_scope.
Local Open Scope Z_scope.

(** Ids are never reused: after [DELETE FROM artists WHERE id = a], the
    next [Artist.add] (or [Playlist.create], the same statement on
    [playlists]) of a new name returns an id above every id the table
    held, the deleted one included, as long as the AUTOINCREMENT counter
    is at least the largest id (as SQLite keeps it). *)
Theorem add_after_delete_fresh_id a name t :
  max_id (a_rows t) <= a_seq t ->
  existsb (named name) (a_rows (fst (artist_delete a t))) = false ->
  exists id, snd (add name (fst (artist_delete a t))) = OutInt id /\
             a_seq t < id /\ (forall r, In r (a_rows t) -> a_id r < id).
Proof.
  intros Hs Hn. unfold add. rewrite Hn. simpl.
  destruct (max_id_bound (filter (fun r => negb (Z.eqb (a_id r) a)) (a_rows t)))
    as [H0 _].
  destruct (max_id_bound (a_rows t)) as [_ Hb].
  eexists. rewrite write_result_pos by lia. split; [reflexivity|].
  split; [lia|]. intros r Hr. specialize (Hb r Hr). lia.
Qed.

Lemma add_after_delete_fresh_id_witness :
  exists id,
    snd (add "C" (fst (artist_delete 2 (mk_artists [mk_artist 1 "A"; mk_artist 2 "B"] 2))))
    = OutInt id /\ 2 < id /\
    (forall r, In r [mk_artist 1 "A"; mk_artist 2 "B"] -> a_id r < id).
Proof.
  apply (add_after_delete_fresh_id 2 "C" (mk_artists [mk_artist 1 "A"; mk_artist 2 "B"] 2)).
  - simpl. lia.
  - reflexivity.
Defined.

(** The UNIQUE names and the primary keys of [artists] (and of
    [playlists], which has the same columns) stay duplicate-free through
    [Artist.add], [Artist.update] and [Artist.delete]. *)
Theorem artist_keys_invariant t :
  NoDup (map a_name (a_rows t)) -> NoDup (map a_id (a_rows t)) ->
  (forall name,
     NoDup (map a_name (a_rows (fst (add name t)))) /\
     NoDup (map a_id (a_rows (fst (add name t))))) /\
  (forall id name,
     NoDup (map a_name (a_rows (fst (artist_update id name t)))) /\
     NoDup (map a_id (a_rows (fst (artist_update id name t))))) /\
  (forall id,
     NoDup (map a_name (a_rows (fst (artist_delete id t)))) /\
     NoDup (map a_id (a_rows (fst (artist_delete id t))))).
Proof.
  intros Hn Hi. split; [|split].
  - intros name. apply add_keys; assumption.
  - intros id name. apply artist_update_keys; assumption.
  - intros id. apply artist_delete_keys; assumption.
Qed.

Lemma artist_keys_invariant_witness :
  NoDup (map a_name (a_rows (fst (artist_update 1 "B"
           (mk_artists [mk_artist 1 "A"; mk_artist 2 "B"] 2))))).
Proof.
  apply (proj1 (proj1 (proj2
    (artist_keys_invariant (mk_artists [mk_artist 1 "A"; mk_artist 2 "B"] 2)
       ltac:(simpl; repeat constructor; simpl; intuition discriminate)
       ltac:(simpl; repeat constructor; simpl; lia))) 1 "B")).
Defined.

(** An album without an artist is never found again: [artist_id = NULL]
    is never true, so [MusicLibrary.add_album] and
    [Track._get_or_create_album] insert a new row on every call, even for
    the same title. *)
Theorem null_artist_album_duplicates title y1 y2 t :
  (exists id1 id2,
     add_album title None y1 t =
       (mk_albums (al_rows t ++ [mk_album id1 title None y1]) id1, OutInt id1) /\
     add_album title None y2 (fst (add_album title None y1 t)) =
       (mk_albums (al_rows t ++ [mk_album id1 title None y1;
                                 mk_album id2 title None y2]) id2, OutInt id2) /\
     id1 < id2) /\
  (exists id1 id2,
     get_or_create_album title None t =
       (mk_albums (al_rows t ++ [mk_album id1 title None None]) id1, OutInt id1) /\
     get_or_create_album title None (fst (get_or_create_album title None t)) =
       (mk_albums (al_rows t ++ [mk_album id1 title None None;
                                 mk_album id2 title None None]) id2, OutInt id2) /\
     id1 < id2).
Proof.
  split.
  - unfold add_album. rewrite get_by_title_null.
    destruct (album_insert_shape title None y1 t) as [id1 [E1 [H1 H2]]].
    rewrite E1. simpl fst. rewrite get_by_title_null.
    destruct (album_insert_shape title None y2
                (mk_albums (al_rows t ++ [mk_album id1 title None y1]) id1))
      as [id2 [E2 [H3 H4]]].
    rewrite E2. exists id1, id2. simpl in *. rewrite <- app_assoc.
    split; [reflexivity|split; [reflexivity|lia]].
  - unfold get_or_create_album. rewrite get_by_title_null.
    destruct (album_insert_shape title None None t) as [id1 [E1 [H1 H2]]].
    rewrite E1. simpl fst. rewrite get_by_title_null.
    destruct (album_insert_shape title None None
                (mk_albums (al_rows t ++ [mk_album id1 title None None]) id1))
      as [id2 [E2 [H3 H4]]].
    rewrite E2. exists id1, id2. simpl in *. rewrite <- app_assoc.
    split; [reflexivity|split; [reflexivity|lia]].
Qed.

(** With an artist, the lookup finds the row the first call inserted:
    calling [MusicLibrary.add_album] (or [Track._get_or_create_album])
    twice for the same title and artist gives the same id and leaves the
    table as the first call left it. *)
Theorem album_get_or_create_idempotent title a y1 y2 t :
  add_album title (Some a) y2 (fst (add_album title (Some a) y1 t)) =
  (fst (add_album title (Some a) y1 t), snd (add_album title (Some a) y1 t)) /\
  get_or_create_album title (Some a) (fst (get_or_create_album title (Some a) t)) =
  (fst (get_or_create_album title (Some a) t),
   snd (get_or_create_album title (Some a) t)).
Proof.
  unfold add_album, get_or_create_album.
  destruct (get_by_title_and_artist title (Some a) t) as [r|] eqn:G.
  - simpl. rewrite G. split; reflexivity.
  - split.
    + destruct (album_insert_shape title (Some a) y1 t) as [id [E _]].
      rewrite E. simpl. rewrite get_by_title_snoc by exact G. reflexivity.
    + destruct (album_insert_shape title (Some a) None t) as [id [E _]].
      rewrite E. simpl. rewrite get_by_title_snoc by exact G. reflexivity.
Qed.

End TableExtras.

(** ** Helper facts for the statements of the gateway *)

Module GatewayFacts.
Import Storage StorageFacts StorageClaims StorageColumns.
Local Open Scope string_scope.
Local Open Scope list_scope.

Lemma assoc_put_present {A} p (d : A) l :
  assoc p l = Some d -> assoc_put p d l = l.
Proof.
  induction l as [|[k v] l IH]; simpl; [discriminate|].
  destruct (String.eqb_spec p k) as [->|Hne].
  - intros H. injection H as ->. reflexivity.
  - intros H. rewrite IH by exact H. reflexivity.
Qed.

Lemma put_present p d s :
  get p s = Some d -> files (put p d s) = files s.
Proof. unfold get, put. simpl. apply assoc_put_present. Qed.

(** [execute] on an existing store once [connect] succeeded, the
    statement prepared and its parameters bound. *)
Lemma execute_present p q s d :
  get p s = Some d -> fails s (clock s) = false ->
  prepare q d = true -> binds_overflow q = false ->
  execute p q s =
  if fails s (S (clock s)) then (Ok (OutRows []), after_tick (after_tick s))
  else let '(db', rows, lastrowid, rowcount) := run_stmt q d in
       if is_select q then (Ok (OutRows rows), after_tick (after_tick s))
       else (Ok (OutInt (write_result lastrowid rowcount)),
             put p db' (after_tick (after_tick s))).
Proof.
  intros Hp F0 Hprep Hov. unfold execute, bind at 1.
  rewrite (connect_present p s d Hp F0).
  unfold bind at 1, read_db.
  change (get p (after_tick s)) with (get p s). rewrite Hp.
  rewrite Hprep, Hov. simpl. unfold bind, tick. simpl.
  destruct (fails s (S (clock s))); [reflexivity|].
  destruct (run_stmt q d) as [[[db' rows] lr] rc].
  destruct (is_select q); reflexivity.
Qed.

Lemma execute_connect_fails p q s :
  fails s (clock s) = true ->
  execute p q s = (Raise OperationalError, after_tick s).
Proof.
  intros F0. unfold execute, connect, bind, tick. simpl. rewrite F0. reflexivity.
Qed.

Lemma has_table_put t0 t v (d : db_file) :
  has_table t0 d = true -> has_table t0 (assoc_put t v d) = true.
Proof.
  unfold has_table. destruct (String.eqb_spec t0 t) as [->|Hne].
  - rewrite assoc_put_same. reflexivity.
  - rewrite assoc_put_other by exact Hne. auto.
Qed.

(** [CREATE TABLE IF NOT EXISTS] keeps the tables already there, whatever
    fails. *)
Lemma execute_create_keeps p t' cols keys t tb s d :
  get p s = Some d -> assoc t d = Some tb ->
  exists d', get p (snd (execute p (SCreateTable t' cols keys) s)) = Some d' /\
             assoc t d' = Some tb.
Proof.
  intros Hp Ht.
  destruct (fails s (clock s)) eqn:F0.
  { rewrite execute_connect_fails by exact F0. exists d. split; assumption. }
  rewrite (execute_present p (SCreateTable t' cols keys) s d Hp F0 eq_refl eq_refl).
  destruct (fails s (S (clock s))); [exists d; split; assumption|].
  simpl. destruct (has_table t' d) eqn:Hh; simpl.
  - exists d. rewrite get_put_same. split; [reflexivity|exact Ht].
  - eexists. rewrite get_put_same. split; [reflexivity|].
    rewrite assoc_put_other; [exact Ht|]. intros ->.
    unfold has_table in Hh. rewrite Ht in Hh. discriminate.
Qed.

Lemma iter_io_invariant {A} (P : fs_state -> Prop) (f : A -> io unit) l :
  (forall x s, P s -> P (snd (f x s))) ->
  forall s, P s -> P (snd (iter_io f l s)).
Proof.
  intros Hf. induction l as [|x l IH]; intros s Hs; simpl; [exact Hs|].
  unfold bind. specialize (Hf x s Hs).
  destruct (f x s) as [[u|e] s'] eqn:E; simpl in *; auto.
Qed.

(** A fault-free [CREATE TABLE IF NOT EXISTS], on a new or an existing
    store. *)
Lemma execute_create_ok p t cols keys s :
  (forall n, fails s n = false) ->
  exists o s1, execute p (SCreateTable t cols keys) s = (Ok o, s1) /\
    fails s1 = fails s /\
    (exists d', get p s1 = Some d' /\ has_table t d' = true /\
                forall d t0, get p s = Some d -> has_table t0 d = true ->
                             has_table t0 d' = true).
Proof.
  intros F.
  destruct (get p s) as [d|] eqn:Hp.
  - rewrite (execute_present p (SCreateTable t cols keys) s d Hp (F _) eq_refl eq_refl), F. simpl.
    destruct (has_table t d) eqn:Hh; simpl; do 2 eexists;
      (split; [reflexivity|split; [reflexivity|]]); eexists;
      (split; [apply get_put_same|]).
    + split; [exact Hh|]. intros d0 t0 Hd0 H0. congruence.
    + split; [unfold has_table; rewrite assoc_put_same; reflexivity|].
      intros d0 t0 Hd0 H0. injection Hd0 as <-. apply has_table_put. exact H0.
  - unfold execute, connect, bind, tick, read_db. simpl. rewrite !F.
    change (get p {| files := files s; clock := S (clock s); fails := fails s |})
      with (get p s).
    rewrite Hp. simpl. rewrite get_put_same. simpl. rewrite F. simpl.
    do 2 eexists. split; [reflexivity|]. split; [reflexivity|].
    eexists. split; [apply get_put_same|]. split.
    + unfold has_table. simpl. rewrite String.eqb_refl. reflexivity.
    + intros d0 t0 Hd0. discriminate.
Qed.

Lemma create_tables_iter p l s :
  (forall n, fails s n = false) ->
  let s' := snd (iter_io (fun '(t, (cols, keys)) =>
                            _ <- execute p (SCreateTable t cols keys) ;; ret tt)
                         l s) in
  (forall n, fails s' n = false) /\
  (forall t, In t (map fst l) -> exists d, get p s' = Some d /\ has_table t d = true) /\
  (forall d t, get p s = Some d -> has_table t d = true ->
               exists d', get p s' = Some d' /\ has_table t d' = true).
Proof.
  set (G := fun '(t, (cols, keys)) =>
              _ <- execute p (SCreateTable t cols keys) ;; ret tt : io unit).
  cbv zeta. revert s. induction l as [|[t [cols keys]] l IH]; intros s F.
  - simpl. split; [exact F|]. split; [tauto|]. intros d t Hd Ht. eauto.
  - destruct (execute_create_ok p t cols keys s F)
      as [o [s1 [E [Ef [d1 [Hd1 [Ht1 Hk1]]]]]]].
    assert (Hs : iter_io G ((t, (cols, keys)) :: l) s = iter_io G l s1).
    { simpl. unfold bind at 1 2. rewrite E. reflexivity. }
    rewrite Hs.
    assert (F1 : forall n, fails s1 n = false) by (intros n; rewrite Ef; apply F).
    destruct (IH s1 F1) as [IH1 [IH2 IH3]].
    split; [exact IH1|]. split.
    + intros t0 [<-|Ht0]; [apply (IH3 d1); assumption|]. apply IH2. exact Ht0.
    + intros d t0 Hd Ht0. apply (IH3 d1); [exact Hd1|]. eapply Hk1; eassumption.
Qed.

End GatewayFacts.

(** ** Properties of the gateway *)

Module GatewayExtras.
Import Storage StorageSamples StorageFacts StorageClaims StorageColumns GatewayFacts.
Local Open Scope string_scope.
Local Open Scope list_scope.

(** [create_tables] never drops or changes a table the store already
    holds ([CREATE TABLE IF NOT EXISTS]), whatever step fails. *)
Theorem create_tables_keeps_tables p s d t tb :
  get p s = Some d -> assoc t d = Some tb ->
  exists d', get p (snd (create_tables p s)) = Some d' /\ assoc t d' = Some tb.
Proof.
  intros Hp Ht. unfold create_tables.
  apply (iter_io_invariant
           (fun s => exists d, get p s = Some d /\ assoc t d = Some tb)).
  - intros [t' [cols keys]] s0 [d0 [H0 H1]]. unfold bind.
    destruct (execute_create_keeps p t' cols keys t tb s0 d0 H0 H1) as [d' [H2 H3]].
    destruct (execute p (SCreateTable t' cols keys) s0) as [[o|e] s1];
      simpl in *; eauto.
  - eauto.
Qed.

Lemma create_tables_keeps_tables_witness :
  exists d', get "lib.db" (snd (create_tables "lib.db" (lib_state (fault_at 1))))
             = Some d' /\
             assoc "artists" d' =
               Some (mk_table ["id"; "name"] [["id"]; ["name"]]
                       [[("id", VInt 1); ("name", VText "Ada")]]).
Proof.
  apply (create_tables_keeps_tables "lib.db" (lib_state (fault_at 1)) lib_db
           "artists" (mk_table ["id"; "name"] [["id"]; ["name"]]
                       [[("id", VInt 1); ("name", VText "Ada")]]));
    vm_compute; reflexivity.
Defined.

(** When no I/O step fails, [create_tables] leaves every table of the
    schema in the store, for a new path as for an existing store. *)
Theorem create_tables_creates_schema p s :
  (forall n, fails s n = false) ->
  forall t, In t table_names ->
  exists d, get p (snd (create_tables p s)) = Some d /\ has_table t d = true.
Proof.
  intros F t Ht. unfold create_tables.
  destruct (create_tables_iter p schema s F) as [_ [H _]]. apply H. exact Ht.
Qed.

Lemma create_tables_creates_schema_witness :
  exists d, get "new.db" (snd (create_tables "new.db" (mk_fs [] 0 no_faults)))
            = Some d /\ has_table "playlist_tracks" d = true.
Proof.
  apply (create_tables_creates_schema "new.db" (mk_fs [] 0 no_faults)).
  - intros n. reflexivity.
  - simpl. tauto.
Defined.

(** The reading statements ([SELECT *], [SELECT COUNT] and
    [PRAGMA table_info]) never change an existing store, whatever step
    fails: [PRAGMA] does not start with SELECT, so [execute] commits, but
    it commits the database it read. *)
Theorem execute_reads_keep_store p q s d :
  get p s = Some d ->
  match q with SSelectAll _ | SCount _ | STableInfo _ => True | _ => False end ->
  files (snd (execute p q s)) = files s.
Proof.
  intros Hp Hq.
  destruct (fails s (clock s)) eqn:F0.
  { rewrite execute_connect_fails by exact F0. reflexivity. }
  destruct (prepare q d) eqn:Hprep.
  2:{ unfold execute, bind at 1. rewrite (connect_present p s d Hp F0).
      unfold bind at 1, read_db.
      change (get p (after_tick s)) with (get p s). rewrite Hp, Hprep.
      reflexivity. }
  assert (Hov : binds_overflow q = false) by (destruct q; tauto || reflexivity).
  rewrite (execute_present p q s d Hp F0 Hprep Hov).
  destruct (fails s (S (clock s))); [reflexivity|].
  destruct q as [| t | t | t |]; try contradiction; simpl.
  - destruct (assoc t d); reflexivity.
  - destruct (assoc t d); reflexivity.
  - destruct (assoc t d); simpl; apply put_present; exact Hp.
Qed.

Lemma execute_reads_keep_store_witness :
  files (snd (execute "lib.db" (STableInfo "artists") (lib_state no_faults))) =
  files (lib_state no_faults).
Proof.
  apply (execute_reads_keep_store "lib.db" (STableInfo "artists")
           (lib_state no_faults) lib_db); [reflexivity|exact I].
Defined.

(** [ensure_column_exists] on an existing store never adds the column:
    when [connect] and the statement succeed, [table_info] returns the
    int -1 (the [PRAGMA] is not a SELECT), iterating over it raises
    [TypeError], and the store is left as it was. *)
Theorem ensure_column_exists_raises p t c ty s d :
  get p s = Some d -> fails s (clock s) = false -> fails s (S (clock s)) = false ->
  fst (ensure_column_exists p t c ty s) = Raise TypeError /\
  files (snd (ensure_column_exists p t c ty s)) = files s.
Proof.
  intros Hp F0 F1.
  assert (Hx : table_info p t s =
               (Ok (OutInt (write_result 0 (-1))),
                put p d (after_tick (after_tick s)))).
  { unfold table_info.
    rewrite (execute_present p (STableInfo t) s d Hp F0 eq_refl eq_refl), F1. simpl.
    destruct (assoc t d); reflexivity. }
  assert (Hy : ensure_column_exists p t c ty s =
               (Raise TypeError, put p d (after_tick (after_tick s)))).
  { unfold ensure_column_exists, bind at 1. rewrite Hx. reflexivity. }
  rewrite Hy. split; [reflexivity|]. simpl snd.
  rewrite put_present; [reflexivity|exact Hp].
Qed.

Lemma ensure_column_exists_raises_witness :
  fst (ensure_column_exists "lib.db" "tracks" "cover_path" "TEXT"
         (lib_state no_faults)) = Raise TypeError /\
  files (snd (ensure_column_exists "lib.db" "tracks" "cover_path" "TEXT"
                (lib_state no_faults))) = files (lib_state no_faults).
Proof.
  apply (ensure_column_exists_raises "lib.db" "tracks" "cover_path" "TEXT"
           (lib_state no_faults) lib_db); reflexivity.
Defined.

End GatewayExtras.
